(** * Sequential model of [native_development/i128_atomic.c]

    The translation unit exports atomic accessors for a 128-bit cell.  Under
    [_WIN32] it contains a single function built on the double-width
    compare-exchange intrinsic; otherwise it contains eight functions built on
    the compiler's generic [__atomic_*] built-ins over the two-word struct
    [atomic128_t].

    Memory is a finite map from byte addresses to 64-bit words.  Every
    exported function is a computation in a state-and-failure monad over that
    memory; a computation fails when it dereferences an address that holds no
    word.  Each built-in appends one event to a trace, which records the
    memory order it was called with.

    The functions require the cell to lie at a 16-byte-aligned address; what
    the hardware does with a misaligned cell is not part of this model. *)

From Stdlib Require Import ZArith Lia.
From stdpp Require Import gmap strings list.

Local Open Scope Z_scope.

(** ** 64-bit words *)

Module Word64.

Definition modulus : Z := 2 ^ 64.

Definition half_modulus : Z := 2 ^ 63.

(** The bit patterns a [uint64_t] can hold. *)
Definition in_range (w : Z) : Prop := 0 <= w < modulus.

(** The value of a bit pattern read through an [__int64] lvalue. *)
Definition to_signed (w : Z) : Z :=
  if w <? half_modulus then w else w - modulus.

(** The bit pattern stored when an [__int64] value is written. *)
Definition of_signed (v : Z) : Z := v mod modulus.

End Word64.

(** ** The value type of the non-Windows branch

    [typedef struct { uint64_t low; uint64_t high; } atomic128_t;] *)

Record atomic128_t : Type := Atomic128 { low : Z; high : Z }.

#[global] Instance atomic128_t_eq_dec : EqDecision atomic128_t.
Proof. solve_decision. Defined.

Definition wf128 (v : atomic128_t) : Prop :=
  Word64.in_range (low v) /\ Word64.in_range (high v).

(** ** Memory orders and trace events *)

Inductive memorder : Type :=
| __ATOMIC_RELAXED
| __ATOMIC_CONSUME
| __ATOMIC_ACQUIRE
| __ATOMIC_RELEASE
| __ATOMIC_ACQ_REL
| __ATOMIC_SEQ_CST.

#[global] Instance memorder_eq_dec : EqDecision memorder.
Proof. solve_decision. Defined.

(** One event per executed atomic built-in: the address it operated on and the
    memory order that governed it.  A compare-exchange is a read-modify-write
    under its success order when it writes, and a read under its failure order
    when it does not.  The Windows intrinsic takes no order and is a full
    barrier. *)
Inductive event : Type :=
| EvLoad (ptr : Z) (order : memorder)
| EvStore (ptr : Z) (order : memorder)
| EvCasSuccess (ptr : Z) (weak : bool) (order : memorder)
| EvCasFailure (ptr : Z) (weak : bool) (order : memorder)
| EvInterlocked128 (ptr : Z) (exchanged : bool).

(** ** Machine state

    [heap] maps the byte address of a 64-bit word to its bit pattern.
    [spurious] and [weak_calls] model the target's freedom to make a weak
    compare-exchange fail although the comparison matched: the [n]-th weak
    call fails spuriously when [spurious n] is [true]. *)

Record state : Type := State {
  heap : gmap Z Z;
  trace : list event;
  spurious : nat -> bool;
  weak_calls : nat
}.

Definition set_heap (s : state) (h : gmap Z Z) : state :=
  {| heap := h; trace := trace s; spurious := spurious s;
     weak_calls := weak_calls s |}.

(** ** The monad *)

Definition M (A : Type) : Type := state -> option (A * state).

Definition ret {A : Type} (a : A) : M A := fun s => Some (a, s).

Definition bind {A B : Type} (m : M A) (k : A -> M B) : M B :=
  fun s => match m s with
           | Some (a, s') => k a s'
           | None => None
           end.

Notation "'let*' x := m 'in' k" := (bind m (fun x => k))
  (at level 10, x name, m at level 100, k at level 200, only parsing).
Notation "'exec' m 'in' k" := (bind m (fun _ => k))
  (at level 10, m at level 100, k at level 200, only parsing).

(** Dereference of an [uint64_t] lvalue at address [p]. *)
Definition read_word (p : Z) : M Z :=
  fun s => match heap s !! p with
           | Some w => Some (w, s)
           | None => None
           end.

(** Assignment to an [uint64_t] lvalue at address [p]. *)
Definition write_word (p : Z) (w : Z) : M unit :=
  fun s => match heap s !! p with
           | Some _ => Some (tt, set_heap s (<[p := w]> (heap s)))
           | None => None
           end.

Definition emit (e : event) : M unit :=
  fun s => Some (tt, {| heap := heap s; trace := trace s ++ [e];
                        spurious := spurious s; weak_calls := weak_calls s |}).

(** The target's decision for the next weak compare-exchange. *)
Definition next_spurious : M bool :=
  fun s => Some (spurious s (weak_calls s),
                 {| heap := heap s; trace := trace s; spurious := spurious s;
                    weak_calls := S (weak_calls s) |}).

(** An [atomic128_t] object at [p]: [low] at offset 0, [high] at offset 8. *)
Definition read128 (p : Z) : M atomic128_t :=
  let* lo := read_word p in
  let* hi := read_word (p + 8) in
  ret {| low := lo; high := hi |}.

Definition write128 (p : Z) (v : atomic128_t) : M unit :=
  exec write_word p (low v) in
  write_word (p + 8) (high v).

(** An [__int64] array element at address [p]. *)
Definition read_i64 (p : Z) : M Z :=
  let* w := read_word p in
  ret (Word64.to_signed w).

Definition write_i64 (p : Z) (v : Z) : M unit :=
  write_word p (Word64.of_signed v).

(** ** The compiler's generic atomic built-ins *)

(** [__atomic_load (ptr, ret, memorder)]: copies the contents of [*ptr] into
    [*ret]. *)
Definition __atomic_load (ptr ret_ : Z) (order : memorder) : M unit :=
  let* v := read128 ptr in
  exec emit (EvLoad ptr order) in
  write128 ret_ v.

(** [__atomic_store (ptr, val, memorder)]: copies the contents of [*val] into
    [*ptr]. *)
Definition __atomic_store (ptr val : Z) (order : memorder) : M unit :=
  let* v := read128 val in
  exec emit (EvStore ptr order) in
  write128 ptr v.

(** [__atomic_compare_exchange (ptr, expected, desired, weak, success_memorder,
    failure_memorder)]: compares [*ptr] with [*expected]; if equal writes
    [*desired] into [*ptr] and returns [true]; otherwise writes the current
    contents of [*ptr] into [*expected] and returns [false].  With [weak] set
    the target may take the second path although the contents are equal. *)
Definition __atomic_compare_exchange (ptr expected desired : Z) (weak : bool)
    (success_memorder failure_memorder : memorder) : M bool :=
  let* e := read128 expected in
  let* d := read128 desired in
  let* cur := read128 ptr in
  let* spur := (if weak then next_spurious else ret false) in
  if bool_decide (cur = e) && negb spur then
    exec emit (EvCasSuccess ptr weak success_memorder) in
    exec write128 ptr d in
    ret true
  else
    exec emit (EvCasFailure ptr weak failure_memorder) in
    exec write128 expected cur in
    ret false.

(** ** The Windows intrinsic

    [unsigned char _InterlockedCompareExchange128 (__int64 volatile
    *Destination, __int64 ExchangeHigh, __int64 ExchangeLow, __int64
    *ComparandResult)]: compares the two-element array at [Destination] with
    the one at [ComparandResult]; if equal, [Destination[0]] receives
    [ExchangeLow] and [Destination[1]] receives [ExchangeHigh] and the result
    is 1, otherwise the result is 0.  In both cases [ComparandResult] is
    overwritten with the original contents of [Destination]. *)
Definition _InterlockedCompareExchange128
    (Destination ExchangeHigh ExchangeLow ComparandResult : Z) : M Z :=
  let* c0 := read_i64 ComparandResult in
  let* c1 := read_i64 (ComparandResult + 8) in
  let* d0 := read_i64 Destination in
  let* d1 := read_i64 (Destination + 8) in
  if (d0 =? c0) && (d1 =? c1) then
    exec emit (EvInterlocked128 Destination true) in
    exec write_i64 Destination ExchangeLow in
    exec write_i64 (Destination + 8) ExchangeHigh in
    exec write_i64 ComparandResult d0 in
    exec write_i64 (ComparandResult + 8) d1 in
    ret 1
  else
    exec emit (EvInterlocked128 Destination false) in
    exec write_i64 ComparandResult d0 in
    exec write_i64 (ComparandResult + 8) d1 in
    ret 0.

(** Conversion of an integer result to C's [bool]. *)
Definition to_bool (r : Z) : bool := negb (r =? 0).

(** ** The [#ifdef _WIN32] branch *)

Module Win32.

Definition compareAndSet_i128 (addr expected desired : Z) : M bool :=
  let* desired_1 := read_i64 (desired + 8 * 1) in
  let* desired_0 := read_i64 (desired + 8 * 0) in
  let* r := _InterlockedCompareExchange128 addr desired_1 desired_0 expected in
  ret (to_bool r).

End Win32.

(** ** The [#else] branch *)

Module Posix.

Definition getOpaque_i128 (addr out : Z) : M unit :=
  __atomic_load addr out __ATOMIC_RELAXED.

Definition getAcquire_i128 (addr out : Z) : M unit :=
  __atomic_load addr out __ATOMIC_ACQUIRE.

Definition getVolatile_i128 (addr out : Z) : M unit :=
  __atomic_load addr out __ATOMIC_SEQ_CST.

Definition compareAndSet_i128 (addr expected desired : Z) : M bool :=
  __atomic_compare_exchange addr expected desired false
    __ATOMIC_SEQ_CST __ATOMIC_SEQ_CST.

Definition weakCompareAndSetRelease_i128 (addr expected desired : Z) : M bool :=
  __atomic_compare_exchange addr expected desired true
    __ATOMIC_RELEASE __ATOMIC_RELAXED.

Definition setOpaque_i128 (addr value : Z) : M unit :=
  __atomic_store addr value __ATOMIC_RELAXED.

Definition setRelease_i128 (addr value : Z) : M unit :=
  __atomic_store addr value __ATOMIC_RELEASE.

Definition setVolatile_i128 (addr value : Z) : M unit :=
  __atomic_store addr value __ATOMIC_SEQ_CST.

End Posix.

(** ** Observations on memory *)

(** The 128-bit value held by the two words at [p], if both exist. *)
Definition load128 (h : gmap Z Z) (p : Z) : option atomic128_t :=
  match h !! p, h !! (p + 8) with
  | Some lo, Some hi => Some {| low := lo; high := hi |}
  | _, _ => None
  end.

(** The memory after the two words at [p] received [v]. *)
Definition store128 (h : gmap Z Z) (p : Z) (v : atomic128_t) : gmap Z Z :=
  <[p + 8 := high v]> (<[p := low v]> h).

(** The 16-byte objects at [p] and [q] share no word. *)
Definition disjoint128 (p q : Z) : Prop :=
  p <> q /\ p <> q + 8 /\ p + 8 <> q.

(** The part of an outcome a sequential caller can see: the returned value
    and the memory. *)
Definition observe {A : Type} (r : option (A * state)) : option (A * gmap Z Z) :=
  match r with
  | Some (a, s) => Some (a, heap s)
  | None => None
  end.

(** The objects at [p] and [q] overlap in exactly one word. *)
Definition partial_overlap (p q : Z) : Prop := p = q + 8 \/ q = p + 8.

(** ** The export table

    The functions the shared library offers for each setting of the
    preprocessor symbol [_WIN32], under their C names.  An entry is classified
    by its C prototype: a load takes the cell and an output object, a store
    takes the cell and a value object, a compare-and-set takes the cell, the
    expected object and the desired object and returns [bool]; the flag of a
    compare-and-set is the [weak] argument its body passes on. *)

Inductive target : Type :=
| Windows
| NonWindows.

Inductive entry : Type :=
| LoadFn (f : Z -> Z -> M unit)
| StoreFn (f : Z -> Z -> M unit)
| CasFn (weak : bool) (f : Z -> Z -> Z -> M bool).

Inductive family : Type :=
| Load
| Store
| StrongCas
| WeakCas.

#[global] Instance family_eq_dec : EqDecision family.
Proof. solve_decision. Defined.

Definition family_of (e : entry) : family :=
  match e with
  | LoadFn _ => Load
  | StoreFn _ => Store
  | CasFn false _ => StrongCas
  | CasFn true _ => WeakCas
  end.

Definition exports (t : target) : list (string * entry) :=
  match t with
  | Windows =>
      [ ("compareAndSet_i128"%string, CasFn false Win32.compareAndSet_i128) ]
  | NonWindows =>
      [ ("getOpaque_i128"%string, LoadFn Posix.getOpaque_i128);
        ("getAcquire_i128"%string, LoadFn Posix.getAcquire_i128);
        ("getVolatile_i128"%string, LoadFn Posix.getVolatile_i128);
        ("compareAndSet_i128"%string, CasFn false Posix.compareAndSet_i128);
        ("weakCompareAndSetRelease_i128"%string,
           CasFn true Posix.weakCompareAndSetRelease_i128);
        ("setOpaque_i128"%string, StoreFn Posix.setOpaque_i128);
        ("setRelease_i128"%string, StoreFn Posix.setRelease_i128);
        ("setVolatile_i128"%string, StoreFn Posix.setVolatile_i128) ]
  end.

(** The name and family of every export. *)
Definition signature (t : target) : list (string * family) :=
  map (fun ne => (fst ne, family_of (snd ne))) (exports t).

(** How many exports of a given family a signature lists. *)
Definition count_family (fam : family) (sig : list (string * family)) : nat :=
  length (filter (fun nf => snd nf = fam) sig).

(** ** Reference behaviour of the accessors

    What a load and a store are said to do to memory, written without the
    built-ins: a load copies the cell at [addr] into the object at [out], a
    store copies the object at [value] into the cell at [addr], and no other
    word changes. *)

Definition load_spec (h : gmap Z Z) (addr out : Z) : option (unit * gmap Z Z) :=
  match load128 h addr, load128 h out with
  | Some v, Some _ => Some (tt, store128 h out v)
  | _, _ => None
  end.

Definition store_spec (h : gmap Z Z) (addr value : Z) : option (unit * gmap Z Z) :=
  match load128 h value, load128 h addr with
  | Some v, Some _ => Some (tt, store128 h addr v)
  | _, _ => None
  end.

(** ** Behaviour of the operation families

    What makes a function a load, a store, a strong or a weak compare-and-set,
    said in terms of what it returns and what it leaves in memory.  A
    compare-and-set is described on three objects holding 64-bit patterns,
    the expected object apart from the cell: it succeeds when the cell equals
    the expected object and, for the weak form only, the target does not
    decide for a spurious failure of this call. *)

Definition load_behaviour (f : Z -> Z -> M unit) : Prop :=
  forall s addr out, observe (f addr out s) = load_spec (heap s) addr out.

Definition store_behaviour (f : Z -> Z -> M unit) : Prop :=
  forall s addr value, observe (f addr value s) = store_spec (heap s) addr value.

Definition cas_behaviour (weak : bool) (f : Z -> Z -> Z -> M bool) : Prop :=
  forall s addr expected desired cur e d,
    load128 (heap s) addr = Some cur ->
    load128 (heap s) expected = Some e ->
    load128 (heap s) desired = Some d ->
    wf128 cur -> wf128 e -> wf128 d ->
    disjoint128 addr expected ->
    exists s',
      f addr expected desired s
        = Some (bool_decide (cur = e)
                && negb (weak && spurious s (weak_calls s)), s')
      /\ load128 (heap s') addr
         = Some (if bool_decide (cur = e)
                    && negb (weak && spurious s (weak_calls s))
                 then d else cur)
      /\ load128 (heap s') expected = Some cur.

(** The behaviour an entry of the export table announces by its tag. *)
Definition behaves (e : entry) : Prop :=
  match e with
  | LoadFn f => load_behaviour f
  | StoreFn f => store_behaviour f
  | CasFn weak f => cas_behaviour weak f
  end.

(** The address is a multiple of 16, as the functions require of the cell. *)
Definition aligned16 (p : Z) : Prop := p mod 16 = 0.

(** ** A concrete machine

    Five 16-byte objects: the cell at 0, an expected object at 16, two desired
    objects at 32 and 48, and an output object at 64. *)

Definition V0 : atomic128_t := {| low := 18446744073709551615; high := 0 |}.

Definition V1 : atomic128_t := {| low := 1; high := 18446744073709551615 |}.

Definition V2 : atomic128_t := {| low := 7; high := 9 |}.

Definition demo_heap : gmap Z Z :=
  store128 (store128 (store128 (store128 (store128
    (list_to_map [(0, 0); (8, 0); (16, 0); (24, 0); (32, 0); (40, 0);
                  (48, 0); (56, 0); (64, 0); (72, 0)])
    0 V0) 16 V0) 32 V1) 48 V2) 64 V2.

Definition demo_state : state :=
  {| heap := demo_heap; trace := []; spurious := fun _ => true;
     weak_calls := 0 |}.

Definition all_zero : atomic128_t := {| low := 0; high := 0 |}.

Definition all_ones : atomic128_t :=
  {| low := 18446744073709551615; high := 18446744073709551615 |}.

Definition low_max : atomic128_t := {| low := 18446744073709551615; high := 0 |}.

Definition high_max : atomic128_t := {| low := 0; high := 18446744073709551615 |}.

(** Stores [v] into the value object at 32, then runs [setVolatile_i128] on
    the cell at 0 followed by [getVolatile_i128] into the output object at 64,
    and reads the output object. *)
Definition roundtrip_run (v : atomic128_t) : option atomic128_t :=
  match (exec write128 32 v in
         exec Posix.setVolatile_i128 0 32 in
         exec Posix.getVolatile_i128 0 64 in
         read128 64) demo_state with
  | Some (r, _) => Some r
  | None => None
  end.

(** ** Calls through the export table *)

(** Every word of the memory is a 64-bit pattern. *)
Definition heap_wf (h : gmap Z Z) : Prop :=
  forall p w, h !! p = Some w -> Word64.in_range w.

(** The 16-byte object at [p] exists. *)
Definition allocated128 (h : gmap Z Z) (p : Z) : Prop :=
  is_Some (h !! p) /\ is_Some (h !! (p + 8)).

(** A call of the export [e] on the cell [addr], with [p] as its second
    argument (output, value or expected object) and, for a compare-and-set,
    [q] as its third (desired object), takes [s] to [s']. *)
Definition runs (e : entry) (addr p q : Z) (s s' : state) : Prop :=
  match e with
  | LoadFn f => f addr p s = Some (tt, s')
  | StoreFn f => f addr p s = Some (tt, s')
  | CasFn _ f => exists r, f addr p q s = Some (r, s')
  end.

(** The words an export may write, by its prototype: the pointers that are
    not [const]-qualified.  A load writes its output object, a store writes
    the cell, a compare-and-set writes the cell or the expected object. *)
Definition footprint (e : entry) (addr p : Z) : list Z :=
  match e with
  | LoadFn _ => [p; p + 8]
  | StoreFn _ => [addr; addr + 8]
  | CasFn _ _ => [addr; addr + 8; p; p + 8]
  end.

(** The value an object holds after its two words went through [__int64]. *)
Definition through_i64 (v : atomic128_t) : atomic128_t :=
  {| low := Word64.of_signed (Word64.to_signed (low v));
     high := Word64.of_signed (Word64.to_signed (high v)) |}.

(** Word-wise comparison as the Windows intrinsic sees it. *)
Definition same_i64 (a b : atomic128_t) : bool :=
  (Word64.to_signed (low a) =? Word64.to_signed (low b))
  && (Word64.to_signed (high a) =? Word64.to_signed (high b)).

(** The objects an export dereferences. *)
Definition arguments (e : entry) (addr p q : Z) : list Z :=
  match e with
  | LoadFn _ => [addr; p]
  | StoreFn _ => [addr; p]
  | CasFn _ _ => [addr; p; q]
  end.

(** [stores_within ok fp h h']: the memory [h'] comes from [h] by a sequence
    of 16-byte stores, each to an existing object whose two words lie in
    [fp], each of a value satisfying [ok]. *)
Inductive stores_within (ok : atomic128_t -> Prop) (fp : list Z)
    (h : gmap Z Z) : gmap Z Z -> Prop :=
| sw_none : stores_within ok fp h h
| sw_store (h' : gmap Z Z) (x : Z) (v : atomic128_t) :
    stores_within ok fp h h' ->
    In x fp -> In (x + 8) fp ->
    allocated128 h' x ->
    ok v ->
    stores_within ok fp h (store128 h' x v).

(** ** Memory lemmas *)

Lemma load128_Some h p v :
  load128 h p = Some v <-> h !! p = Some (low v) /\ h !! (p + 8) = Some (high v).
Proof.
  unfold load128. destruct v as [lo hi]; simpl.
  destruct (h !! p) as [a|], (h !! (p + 8)) as [b|]; split;
    try (intros [? ?]; congruence); try congruence.
  intros [= -> ->]. auto.
Qed.

Lemma load128_store128_eq h p v : load128 (store128 h p v) p = Some v.
Proof.
  apply load128_Some. unfold store128. split.
  - rewrite lookup_insert_ne by lia. apply lookup_insert_eq.
  - apply lookup_insert_eq.
Qed.

Lemma load128_store128_ne h p q v :
  disjoint128 p q -> load128 (store128 h p v) q = load128 h q.
Proof.
  intros (H1 & H2 & H3). unfold load128, store128.
  rewrite !lookup_insert_ne by lia. reflexivity.
Qed.

Lemma store128_id h p v : load128 h p = Some v -> store128 h p v = h.
Proof.
  intros [H1 H2]%load128_Some. unfold store128.
  rewrite (insert_id h p) by exact H1. apply insert_id. exact H2.
Qed.

Lemma store128_lookup_other h p v a :
  a <> p -> a <> p + 8 -> store128 h p v !! a = h !! a.
Proof.
  intros H1 H2. unfold store128. rewrite !lookup_insert_ne by lia. reflexivity.
Qed.

(** ** Execution lemmas for the memory primitives *)

Lemma read128_run s p v :
  load128 (heap s) p = Some v -> read128 p s = Some (v, s).
Proof.
  intros [H1 H2]%load128_Some. unfold read128, bind, read_word, ret.
  rewrite H1, H2. destruct v; reflexivity.
Qed.

Lemma read128_fail s p : load128 (heap s) p = None -> read128 p s = None.
Proof.
  unfold load128, read128, bind, read_word, ret.
  destruct (heap s !! p); [|reflexivity].
  destruct (heap s !! (p + 8)); [discriminate|reflexivity].
Qed.

Lemma write128_run s p v old :
  load128 (heap s) p = Some old ->
  write128 p v s = Some (tt, set_heap s (store128 (heap s) p v)).
Proof.
  intros [H1 H2]%load128_Some. unfold write128, bind, write_word.
  rewrite H1. simpl. rewrite lookup_insert_ne by lia. rewrite H2. reflexivity.
Qed.

(** ** Execution lemmas for the built-ins *)

Lemma atomic_load_run s ptr ret_ order v old :
  load128 (heap s) ptr = Some v ->
  load128 (heap s) ret_ = Some old ->
  __atomic_load ptr ret_ order s =
    Some (tt, {| heap := store128 (heap s) ret_ v;
                 trace := trace s ++ [EvLoad ptr order];
                 spurious := spurious s; weak_calls := weak_calls s |}).
Proof.
  intros Hv Hold. unfold __atomic_load, bind at 1.
  rewrite (read128_run _ _ _ Hv). unfold bind, emit.
  erewrite write128_run by exact Hold. reflexivity.
Qed.

Lemma atomic_store_run s ptr val order v old :
  load128 (heap s) val = Some v ->
  load128 (heap s) ptr = Some old ->
  __atomic_store ptr val order s =
    Some (tt, {| heap := store128 (heap s) ptr v;
                 trace := trace s ++ [EvStore ptr order];
                 spurious := spurious s; weak_calls := weak_calls s |}).
Proof.
  intros Hv Hold. unfold __atomic_store, bind at 1.
  rewrite (read128_run _ _ _ Hv). unfold bind, emit.
  erewrite write128_run by exact Hold. reflexivity.
Qed.

Lemma atomic_load_observe s ptr ret_ order :
  observe (__atomic_load ptr ret_ order s) =
    match load128 (heap s) ptr, load128 (heap s) ret_ with
    | Some v, Some _ => Some (tt, store128 (heap s) ret_ v)
    | _, _ => None
    end.
Proof.
  destruct (load128 (heap s) ptr) as [v|] eqn:Hv.
  - destruct (load128 (heap s) ret_) as [old|] eqn:Hold.
    + erewrite atomic_load_run by eassumption. reflexivity.
    + unfold __atomic_load, bind at 1. rewrite (read128_run _ _ _ Hv).
      unfold bind, emit, write128, bind, write_word; simpl.
      unfold load128 in Hold.
      destruct (heap s !! ret_) eqn:E1; [|reflexivity]. simpl.
      rewrite lookup_insert_ne by lia.
      destruct (heap s !! (ret_ + 8)); [discriminate|reflexivity].
  - unfold __atomic_load, bind. rewrite (read128_fail _ _ Hv). reflexivity.
Qed.

Lemma atomic_store_observe s ptr val order :
  observe (__atomic_store ptr val order s) =
    match load128 (heap s) val, load128 (heap s) ptr with
    | Some v, Some _ => Some (tt, store128 (heap s) ptr v)
    | _, _ => None
    end.
Proof.
  destruct (load128 (heap s) val) as [v|] eqn:Hv.
  - destruct (load128 (heap s) ptr) as [old|] eqn:Hold.
    + erewrite atomic_store_run by eassumption. reflexivity.
    + unfold __atomic_store, bind at 1. rewrite (read128_run _ _ _ Hv).
      unfold bind, emit, write128, bind, write_word; simpl.
      unfold load128 in Hold.
      destruct (heap s !! ptr) eqn:E1; [|reflexivity]. simpl.
      rewrite lookup_insert_ne by lia.
      destruct (heap s !! (ptr + 8)); [discriminate|reflexivity].
  - unfold __atomic_store, bind. rewrite (read128_fail _ _ Hv). reflexivity.
Qed.

Lemma cas_success_run s ptr expected desired weak so fo e d :
  load128 (heap s) expected = Some e ->
  load128 (heap s) desired = Some d ->
  load128 (heap s) ptr = Some e ->
  (weak = true -> spurious s (weak_calls s) = false) ->
  __atomic_compare_exchange ptr expected desired weak so fo s =
    Some (true, {| heap := store128 (heap s) ptr d;
                   trace := trace s ++ [EvCasSuccess ptr weak so];
                   spurious := spurious s;
                   weak_calls := if weak then S (weak_calls s)
                                 else weak_calls s |}).
Proof.
  intros He Hd Hc Hw. unfold __atomic_compare_exchange.
  unfold bind at 1. rewrite (read128_run _ _ _ He).
  unfold bind at 1. rewrite (read128_run _ _ _ Hd).
  unfold bind at 1. rewrite (read128_run _ _ _ Hc).
  destruct weak.
  - unfold bind at 1, next_spurious. rewrite Hw by reflexivity.
    rewrite bool_decide_eq_true_2 by reflexivity. simpl.
    unfold bind at 1, emit. unfold bind at 1.
    erewrite write128_run by (simpl; exact Hc). reflexivity.
  - unfold bind at 1, ret at 1.
    rewrite bool_decide_eq_true_2 by reflexivity. simpl.
    unfold bind at 1, emit. unfold bind at 1.
    erewrite write128_run by (simpl; exact Hc). reflexivity.
Qed.

Lemma cas_failure_run s ptr expected desired weak so fo e d cur :
  load128 (heap s) expected = Some e ->
  load128 (heap s) desired = Some d ->
  load128 (heap s) ptr = Some cur ->
  cur <> e \/ (weak = true /\ spurious s (weak_calls s) = true) ->
  __atomic_compare_exchange ptr expected desired weak so fo s =
    Some (false, {| heap := store128 (heap s) expected cur;
                    trace := trace s ++ [EvCasFailure ptr weak fo];
                    spurious := spurious s;
                    weak_calls := if weak then S (weak_calls s)
                                  else weak_calls s |}).
Proof.
  intros He Hd Hc Hw. unfold __atomic_compare_exchange.
  unfold bind at 1. rewrite (read128_run _ _ _ He).
  unfold bind at 1. rewrite (read128_run _ _ _ Hd).
  unfold bind at 1. rewrite (read128_run _ _ _ Hc).
  assert (Hcond : bool_decide (cur = e)
                  && negb (if weak then spurious s (weak_calls s) else false)
                  = false).
  { destruct Hw as [Hne | [-> ->]].
    - rewrite bool_decide_eq_false_2 by exact Hne. reflexivity.
    - apply andb_false_r. }
  destruct weak.
  - unfold bind at 1, next_spurious. rewrite Hcond.
    unfold bind at 1, emit. unfold bind at 1.
    erewrite write128_run by (simpl; exact He). reflexivity.
  - unfold bind at 1, ret at 1. rewrite Hcond.
    unfold bind at 1, emit. unfold bind at 1.
    erewrite write128_run by (simpl; exact He). reflexivity.
Qed.

(** ** Signed and unsigned views of a word *)

Lemma of_signed_to_signed w :
  Word64.in_range w -> Word64.of_signed (Word64.to_signed w) = w.
Proof.
  unfold Word64.in_range, Word64.of_signed, Word64.to_signed,
    Word64.half_modulus, Word64.modulus.
  intros Hw. destruct (Z.ltb_spec w (2 ^ 63)).
  - apply Z.mod_small. lia.
  - replace (w - 2 ^ 64) with (w + (-1) * 2 ^ 64) by lia.
    rewrite Z.mod_add by lia. apply Z.mod_small. lia.
Qed.

Lemma to_signed_inj a b :
  Word64.in_range a -> Word64.in_range b ->
  Word64.to_signed a = Word64.to_signed b -> a = b.
Proof.
  intros Ha Hb Heq.
  rewrite <- (of_signed_to_signed a Ha), <- (of_signed_to_signed b Hb).
  congruence.
Qed.

Lemma signed_compare cur e :
  wf128 cur -> wf128 e ->
  (Word64.to_signed (low cur) =? Word64.to_signed (low e))
  && (Word64.to_signed (high cur) =? Word64.to_signed (high e))
  = bool_decide (cur = e).
Proof.
  intros [Hc1 Hc2] [He1 He2]. destruct cur as [cl ch], e as [el eh]; simpl in *.
  destruct (decide (Atomic128 cl ch = Atomic128 el eh)) as [Heq|Hne].
  - rewrite bool_decide_eq_true_2 by exact Heq. injection Heq as -> ->.
    rewrite !Z.eqb_refl. reflexivity.
  - rewrite bool_decide_eq_false_2 by exact Hne.
    apply andb_false_iff.
    destruct (Z.eqb_spec (Word64.to_signed cl) (Word64.to_signed el)) as [E1|];
      [|left; reflexivity].
    destruct (Z.eqb_spec (Word64.to_signed ch) (Word64.to_signed eh)) as [E2|];
      [|right; reflexivity].
    exfalso. apply Hne. f_equal; apply to_signed_inj; assumption.
Qed.

(** ** Execution lemmas for the Windows branch *)

Lemma lookup_insert_keeps (h : gmap Z Z) p q v :
  is_Some (h !! p) -> is_Some (<[q := v]> h !! p).
Proof. intros H. apply lookup_insert_is_Some'. right. exact H. Qed.

Lemma write_word_run s p w :
  is_Some (heap s !! p) ->
  write_word p w s = Some (tt, set_heap s (<[p := w]> (heap s))).
Proof. intros [x Hx]. unfold write_word. rewrite Hx. reflexivity. Qed.

Lemma read_i64_run s p w :
  heap s !! p = Some w -> read_i64 p s = Some (Word64.to_signed w, s).
Proof. intros H. unfold read_i64, bind, read_word, ret. rewrite H. reflexivity. Qed.

Lemma win32_compareAndSet_success s addr expected desired e d :
  load128 (heap s) expected = Some e ->
  load128 (heap s) desired = Some d ->
  load128 (heap s) addr = Some e ->
  wf128 e -> wf128 d ->
  Win32.compareAndSet_i128 addr expected desired s =
    Some (true,
          {| heap := store128 (store128 (heap s) addr d) expected e;
             trace := trace s ++ [EvInterlocked128 addr true];
             spurious := spurious s; weak_calls := weak_calls s |}).
Proof.
  intros [He0 He1]%load128_Some [Hd0 Hd1]%load128_Some [Hc0 Hc1]%load128_Some
    Hwe Hwd.
  unfold Win32.compareAndSet_i128.
  unfold bind at 1. replace (desired + 8 * 1) with (desired + 8) by lia.
  rewrite (read_i64_run _ _ _ Hd1).
  unfold bind at 1. replace (desired + 8 * 0) with desired by lia.
  rewrite (read_i64_run _ _ _ Hd0).
  unfold bind at 1, _InterlockedCompareExchange128.
  unfold bind at 1. rewrite (read_i64_run _ _ _ He0).
  unfold bind at 1. rewrite (read_i64_run _ _ _ He1).
  unfold bind at 1. rewrite (read_i64_run _ _ _ Hc0).
  unfold bind at 1. rewrite (read_i64_run _ _ _ Hc1).
  rewrite !Z.eqb_refl. cbn [andb].
  destruct Hwd as [Hwd0 Hwd1], Hwe as [Hwe0 Hwe1].
  unfold bind at 1, emit. unfold write_i64.
  rewrite !of_signed_to_signed by assumption.
  unfold bind at 1. rewrite write_word_run by (simpl; eauto).
  unfold bind at 1. rewrite write_word_run
    by (simpl; apply lookup_insert_keeps; eauto).
  unfold bind at 1. rewrite write_word_run
    by (simpl; do 2 apply lookup_insert_keeps; eauto).
  unfold bind at 1. rewrite write_word_run
    by (simpl; do 3 apply lookup_insert_keeps; eauto).
  reflexivity.
Qed.

Lemma win32_compareAndSet_failure s addr expected desired e d cur :
  load128 (heap s) expected = Some e ->
  load128 (heap s) desired = Some d ->
  load128 (heap s) addr = Some cur ->
  wf128 e -> wf128 cur -> cur <> e ->
  Win32.compareAndSet_i128 addr expected desired s =
    Some (false,
          {| heap := store128 (heap s) expected cur;
             trace := trace s ++ [EvInterlocked128 addr false];
             spurious := spurious s; weak_calls := weak_calls s |}).
Proof.
  intros [He0 He1]%load128_Some [Hd0 Hd1]%load128_Some [Hc0 Hc1]%load128_Some
    Hwe Hwc Hne.
  unfold Win32.compareAndSet_i128.
  unfold bind at 1. replace (desired + 8 * 1) with (desired + 8) by lia.
  rewrite (read_i64_run _ _ _ Hd1).
  unfold bind at 1. replace (desired + 8 * 0) with desired by lia.
  rewrite (read_i64_run _ _ _ Hd0).
  unfold bind at 1, _InterlockedCompareExchange128.
  unfold bind at 1. rewrite (read_i64_run _ _ _ He0).
  unfold bind at 1. rewrite (read_i64_run _ _ _ He1).
  unfold bind at 1. rewrite (read_i64_run _ _ _ Hc0).
  unfold bind at 1. rewrite (read_i64_run _ _ _ Hc1).
  rewrite (signed_compare cur e Hwc Hwe).
  rewrite bool_decide_eq_false_2 by exact Hne.
  destruct Hwc as [Hwc0 Hwc1].
  unfold bind at 1, emit. unfold write_i64.
  rewrite !of_signed_to_signed by assumption.
  unfold bind at 1. rewrite write_word_run by (simpl; eauto).
  unfold bind at 1. rewrite write_word_run
    by (simpl; apply lookup_insert_keeps; eauto).
  reflexivity.
Qed.

Lemma load128_store128_is_Some h p q v :
  is_Some (load128 h q) -> is_Some (load128 (store128 h p v) q).
Proof.
  intros [w [H1 H2]%load128_Some]. unfold load128, store128.
  destruct (lookup_insert_keeps (<[p := low v]> h) q (p + 8) (high v)) as [a ->].
  { apply lookup_insert_keeps. eauto. }
  destruct (lookup_insert_keeps (<[p := low v]> h) (q + 8) (p + 8) (high v))
    as [b ->].
  { apply lookup_insert_keeps. eauto. }
  eauto.
Qed.

Lemma load128_store128_no_partial h p q v :
  ~ partial_overlap p q -> load128 h p = Some v ->
  load128 (store128 h q v) p = Some v.
Proof.
  intros Hno Hp. destruct (decide (p = q)) as [->|Hne].
  - apply load128_store128_eq.
  - rewrite load128_store128_ne; [exact Hp|].
    unfold partial_overlap, disjoint128 in *. lia.
Qed.

(** * Properties of the exported functions *)

(** C2. The strong compare-and-set never fails spuriously: in every state,
    whatever the target's spurious-failure decisions are, if the cell at
    [addr] holds the same 128 bits as the object at [expected] then
    [compareAndSet_i128] returns [true] (and the cell then holds the desired
    value). *)
Theorem compareAndSet_never_fails_spuriously s addr expected desired v d :
  load128 (heap s) addr = Some v ->
  load128 (heap s) expected = Some v ->
  load128 (heap s) desired = Some d ->
  exists s', Posix.compareAndSet_i128 addr expected desired s = Some (true, s')
             /\ load128 (heap s') addr = Some d.
Proof.
  intros Hc He Hd. eexists. split.
  - unfold Posix.compareAndSet_i128.
    apply (cas_success_run s addr expected desired false _ _ v d He Hd Hc).
    discriminate.
  - simpl. apply load128_store128_eq.
Qed.

Lemma compareAndSet_never_fails_spuriously_witness :
  exists s', Posix.compareAndSet_i128 0 16 32 demo_state = Some (true, s')
             /\ load128 (heap s') 0 = Some V1.
Proof.
  apply (compareAndSet_never_fails_spuriously demo_state 0 16 32 V0 V1);
    reflexivity.
Defined.

(** C3. When a compare-and-set, strong or weak, finds the cell different from
    the expected object, the call completes normally with result [false]; the
    memory afterwards is the memory before with the cell's observed contents
    copied into the expected object, so the expected object holds the current
    value and the cell's sixteen bytes are as before.  (The expected object
    is a C object of its own: it does not overlap half of the cell.) *)
Theorem compareAndSet_mismatch s addr expected desired cur e d :
  load128 (heap s) addr = Some cur ->
  load128 (heap s) expected = Some e ->
  load128 (heap s) desired = Some d ->
  cur <> e ->
  ~ partial_overlap addr expected ->
  (exists s', Posix.compareAndSet_i128 addr expected desired s = Some (false, s')
              /\ heap s' = store128 (heap s) expected cur
              /\ load128 (heap s') addr = Some cur
              /\ load128 (heap s') expected = Some cur)
  /\
  (exists s', Posix.weakCompareAndSetRelease_i128 addr expected desired s
                = Some (false, s')
              /\ heap s' = store128 (heap s) expected cur
              /\ load128 (heap s') addr = Some cur
              /\ load128 (heap s') expected = Some cur).
Proof.
  intros Hc He Hd Hne Hno. split; eexists; (split; [|split; [|split]]).
  - unfold Posix.compareAndSet_i128.
    apply (cas_failure_run s addr expected desired false _ _ e d cur He Hd Hc).
    left. exact Hne.
  - reflexivity.
  - simpl. apply load128_store128_no_partial; assumption.
  - simpl. apply load128_store128_eq.
  - unfold Posix.weakCompareAndSetRelease_i128.
    apply (cas_failure_run s addr expected desired true _ _ e d cur He Hd Hc).
    left. exact Hne.
  - reflexivity.
  - simpl. apply load128_store128_no_partial; assumption.
  - simpl. apply load128_store128_eq.
Qed.

Lemma compareAndSet_mismatch_witness :
  (exists s', Posix.compareAndSet_i128 0 64 32 demo_state = Some (false, s')
              /\ heap s' = store128 (heap demo_state) 64 V0
              /\ load128 (heap s') 0 = Some V0
              /\ load128 (heap s') 64 = Some V0)
  /\
  (exists s', Posix.weakCompareAndSetRelease_i128 0 64 32 demo_state
                = Some (false, s')
              /\ heap s' = store128 (heap demo_state) 64 V0
              /\ load128 (heap s') 0 = Some V0
              /\ load128 (heap s') 64 = Some V0).
Proof.
  apply (compareAndSet_mismatch demo_state 0 64 32 V0 V2 V1);
    try reflexivity.
  - discriminate.
  - unfold partial_overlap. lia.
Defined.

(** C4. Round trip: for every 128-bit value [V] (no restriction on either
    half, so all-zero, all-ones and each half at its maximum are included),
    [setVolatile_i128] of [V] to a cell followed at once by
    [getVolatile_i128] of that cell completes and hands back exactly [V]. *)
Theorem setVolatile_getVolatile_roundtrip s addr value out V old o :
  load128 (heap s) value = Some V ->
  load128 (heap s) addr = Some old ->
  load128 (heap s) out = Some o ->
  exists s1 s2,
    Posix.setVolatile_i128 addr value s = Some (tt, s1)
    /\ Posix.getVolatile_i128 addr out s1 = Some (tt, s2)
    /\ load128 (heap s2) out = Some V.
Proof.
  intros HV Hold Ho.
  destruct (load128_store128_is_Some (heap s) addr out V) as [o' Ho'];
    [eauto|].
  eexists. eexists. split; [|split].
  - unfold Posix.setVolatile_i128. eapply atomic_store_run; eassumption.
  - unfold Posix.getVolatile_i128. eapply atomic_load_run; simpl.
    + apply load128_store128_eq.
    + exact Ho'.
  - simpl. apply load128_store128_eq.
Qed.

Lemma setVolatile_getVolatile_roundtrip_witness :
  exists s1 s2,
    Posix.setVolatile_i128 0 32 demo_state = Some (tt, s1)
    /\ Posix.getVolatile_i128 0 64 s1 = Some (tt, s2)
    /\ load128 (heap s2) 64 = Some V1.
Proof.
  apply (setVolatile_getVolatile_roundtrip demo_state 0 32 64 V1 V0 V2);
    reflexivity.
Defined.

(** C1. Compare-and-set scenario.  The cell holds [v0]; the expected object
    holds [v0]; [v0] and [v1] differ (nothing more is needed of [v2]).
    - Non-Windows branch: [compareAndSet_i128 (addr, expected, d1)] returns
      [true]; the load [getVolatile_i128 (addr, out)] that follows hands back
      [v1]; then [compareAndSet_i128 (addr, expected, d2)], whose expected
      object still holds [v0], returns [false], the cell still holds [v1], and
      the expected object now holds [v1].
    - Windows branch (which exports no load; the cell is read from memory):
      the same two calls return [true] and then [false], with the cell at
      [v1] after each and the expected object at [v1] in the end. *)
Theorem compareAndSet_scenario s addr expected d1 d2 out v0 v1 v2 o :
  load128 (heap s) addr = Some v0 ->
  load128 (heap s) expected = Some v0 ->
  load128 (heap s) d1 = Some v1 ->
  load128 (heap s) d2 = Some v2 ->
  load128 (heap s) out = Some o ->
  disjoint128 addr expected ->
  disjoint128 addr out ->
  disjoint128 out expected ->
  v0 <> v1 ->
  (exists s1 s2 s3,
      Posix.compareAndSet_i128 addr expected d1 s = Some (true, s1)
      /\ Posix.getVolatile_i128 addr out s1 = Some (tt, s2)
      /\ load128 (heap s2) out = Some v1
      /\ Posix.compareAndSet_i128 addr expected d2 s2 = Some (false, s3)
      /\ load128 (heap s3) addr = Some v1
      /\ load128 (heap s3) expected = Some v1)
  /\
  (wf128 v0 -> wf128 v1 ->
   exists s1 s3,
      Win32.compareAndSet_i128 addr expected d1 s = Some (true, s1)
      /\ load128 (heap s1) addr = Some v1
      /\ Win32.compareAndSet_i128 addr expected d2 s1 = Some (false, s3)
      /\ load128 (heap s3) addr = Some v1
      /\ load128 (heap s3) expected = Some v1).
Proof.
  intros Hc He Hd1 Hd2 Ho Dae Dao Doe Hne.
  assert (Dea : disjoint128 expected addr)
    by (unfold disjoint128 in *; lia).
  split.
  -
    pose (h1 := store128 (heap s) addr v1).
    assert (Ho1 : load128 h1 out = Some o).
    { unfold h1. rewrite load128_store128_ne by exact Dao. exact Ho. }
    pose (h2 := store128 h1 out v1).
    assert (Hc2 : load128 h2 addr = Some v1).
    { unfold h2. rewrite load128_store128_ne.
      - apply load128_store128_eq.
      - unfold disjoint128 in *; lia. }
    assert (He2 : load128 h2 expected = Some v0).
    { unfold h2, h1. rewrite !load128_store128_ne by assumption. exact He. }
    destruct (load128_store128_is_Some h1 out d2 v1) as [v2' Hd2'].
    { apply load128_store128_is_Some. eauto. }
    do 3 eexists. split; [|split; [|split; [|split; [|split]]]].
    + unfold Posix.compareAndSet_i128.
      apply (cas_success_run s addr expected d1 false _ _ v0 v1 He Hd1 Hc).
      discriminate.
    + unfold Posix.getVolatile_i128. eapply atomic_load_run; simpl.
      * apply load128_store128_eq.
      * exact Ho1.
    + simpl. apply load128_store128_eq.
    + unfold Posix.compareAndSet_i128.
      eapply (cas_failure_run _ addr expected d2 false _ _ v0 v2' v1); simpl.
      * exact He2.
      * exact Hd2'.
      * exact Hc2.
      * left. congruence.
    + simpl. fold h1. fold h2. rewrite load128_store128_ne by exact Dea.
      exact Hc2.
    + simpl. apply load128_store128_eq.
  - intros W0 W1.
    pose (h1 := store128 (store128 (heap s) addr v1) expected v0).
    assert (Hc1 : load128 h1 addr = Some v1).
    { unfold h1. rewrite load128_store128_ne by exact Dea.
      apply load128_store128_eq. }
    assert (He1 : load128 h1 expected = Some v0).
    { unfold h1. apply load128_store128_eq. }
    destruct (load128_store128_is_Some (store128 (heap s) addr v1)
                expected d2 v0) as [v2' Hd2'].
    { apply load128_store128_is_Some. eauto. }
    do 2 eexists. split; [|split; [|split; [|split]]].
    + apply (win32_compareAndSet_success s addr expected d1 v0 v1);
        assumption.
    + exact Hc1.
    + apply (win32_compareAndSet_failure _ addr expected d2 v0 v2' v1);
        simpl; try assumption. congruence.
    + simpl. fold h1. rewrite load128_store128_ne by exact Dea. exact Hc1.
    + simpl. apply load128_store128_eq.
Qed.

Lemma compareAndSet_scenario_witness :
  (exists s1 s2 s3,
      Posix.compareAndSet_i128 0 16 32 demo_state = Some (true, s1)
      /\ Posix.getVolatile_i128 0 64 s1 = Some (tt, s2)
      /\ load128 (heap s2) 64 = Some V1
      /\ Posix.compareAndSet_i128 0 16 48 s2 = Some (false, s3)
      /\ load128 (heap s3) 0 = Some V1
      /\ load128 (heap s3) 16 = Some V1)
  /\
  (exists s1 s3,
      Win32.compareAndSet_i128 0 16 32 demo_state = Some (true, s1)
      /\ load128 (heap s1) 0 = Some V1
      /\ Win32.compareAndSet_i128 0 16 48 s1 = Some (false, s3)
      /\ load128 (heap s3) 0 = Some V1
      /\ load128 (heap s3) 16 = Some V1).
Proof.
  destruct (compareAndSet_scenario demo_state 0 16 32 48 64 V0 V1 V2 V2)
    as [HP HW]; try reflexivity;
    try (unfold disjoint128; lia); try discriminate.
  split; [exact HP|].
  apply HW; unfold wf128, Word64.in_range, Word64.modulus; simpl; lia.
Defined.

(** C7. Word order at the boundary.  A 128-bit value is two 64-bit words, the
    low word at offset 0 ([low], index 0) and the high word at offset 8
    ([high], index 1), and both branches read it that way: on the same memory
    (three objects holding 64-bit patterns, the expected object apart from the
    cell) the Windows and the non-Windows [compareAndSet_i128] return the same
    result and leave the same memory.  In particular, when the Windows call
    exchanges, word 0 of the cell receives [desired[0]] and word 1 receives
    [desired[1]]. *)
Theorem compareAndSet_backends_agree s addr expected desired cur e d :
  load128 (heap s) addr = Some cur ->
  load128 (heap s) expected = Some e ->
  load128 (heap s) desired = Some d ->
  wf128 cur -> wf128 e -> wf128 d ->
  disjoint128 addr expected ->
  observe (Win32.compareAndSet_i128 addr expected desired s)
    = observe (Posix.compareAndSet_i128 addr expected desired s)
  /\
  (cur = e ->
   exists s', Win32.compareAndSet_i128 addr expected desired s = Some (true, s')
              /\ heap s' !! addr = heap s !! desired
              /\ heap s' !! (addr + 8) = heap s !! (desired + 8)).
Proof.
  intros Hc He Hd Wc We Wd Dae.
  assert (Dea : disjoint128 expected addr)
    by (unfold disjoint128 in *; lia).
  destruct (decide (cur = e)) as [->|Hne].
  - assert (Hkeep : store128 (store128 (heap s) addr d) expected e
                    = store128 (heap s) addr d).
    { apply store128_id. rewrite load128_store128_ne by exact Dae. exact He. }
    rewrite (win32_compareAndSet_success s addr expected desired e d)
      by assumption.
    split.
    + unfold Posix.compareAndSet_i128.
      rewrite (cas_success_run s addr expected desired false _ _ e d)
        by (assumption || discriminate).
      simpl. rewrite Hkeep. reflexivity.
    + intros _. eexists. split; [reflexivity|]. simpl. rewrite Hkeep.
      apply load128_Some in Hd as [Hd0 Hd1]. rewrite Hd0, Hd1.
      pose proof (load128_store128_eq (heap s) addr d) as Hrd.
      apply load128_Some in Hrd. exact Hrd.
  - split; [|intros Heq; contradiction].
    rewrite (win32_compareAndSet_failure s addr expected desired e d cur)
      by assumption.
    unfold Posix.compareAndSet_i128.
    rewrite (cas_failure_run s addr expected desired false _ _ e d cur)
      by (assumption || (left; exact Hne)).
    reflexivity.
Qed.

Lemma compareAndSet_backends_agree_witness :
  observe (Win32.compareAndSet_i128 0 16 32 demo_state)
    = observe (Posix.compareAndSet_i128 0 16 32 demo_state)
  /\
  exists s', Win32.compareAndSet_i128 0 16 32 demo_state = Some (true, s')
             /\ heap s' !! 0 = heap demo_state !! 32
             /\ heap s' !! (0 + 8) = heap demo_state !! (32 + 8).
Proof.
  assert (W0 : wf128 V0)
    by (unfold wf128, Word64.in_range, Word64.modulus; simpl; lia).
  assert (W1 : wf128 V1)
    by (unfold wf128, Word64.in_range, Word64.modulus; simpl; lia).
  assert (D : disjoint128 0 16) by (unfold disjoint128; lia).
  destruct (compareAndSet_backends_agree demo_state 0 16 32 V0 V0 V1
              eq_refl eq_refl eq_refl W0 W0 W1 D) as [Hobs Hword].
  split; [exact Hobs|]. apply Hword. reflexivity.
Defined.

(** ** The exports behave as their families *)

Lemma demo_weak_exported :
  In ("weakCompareAndSetRelease_i128"%string,
      CasFn true Posix.weakCompareAndSetRelease_i128) (exports NonWindows).
Proof. simpl. tauto. Qed.

Lemma posix_cas_behaviour weak so fo :
  cas_behaviour weak
    (fun addr expected desired =>
       __atomic_compare_exchange addr expected desired weak so fo).
Proof.
  intros s addr expected desired cur e d Hc He Hd _ _ _ Dae.
  assert (Dea : disjoint128 expected addr)
    by (unfold disjoint128 in *; lia).
  destruct (decide (cur = e)) as [->|Hne].
  - rewrite bool_decide_eq_true_2 by reflexivity. cbn [andb].
    destruct weak; cbn [andb].
    + destruct (spurious s (weak_calls s)) eqn:Hsp; cbn [negb].
      * eexists. split; [|split].
        -- apply (cas_failure_run s addr expected desired true so fo e d e
                    He Hd Hc). right. auto.
        -- simpl. rewrite load128_store128_ne by exact Dea. exact Hc.
        -- simpl. apply load128_store128_eq.
      * eexists. split; [|split].
        -- apply (cas_success_run s addr expected desired true so fo e d
                    He Hd Hc). intros _. exact Hsp.
        -- simpl. apply load128_store128_eq.
        -- simpl. rewrite load128_store128_ne by exact Dae. exact He.
    + cbn [negb]. eexists. split; [|split].
      * apply (cas_success_run s addr expected desired false so fo e d
                 He Hd Hc). discriminate.
      * simpl. apply load128_store128_eq.
      * simpl. rewrite load128_store128_ne by exact Dae. exact He.
  - rewrite bool_decide_eq_false_2 by exact Hne. cbn [andb].
    eexists. split; [|split].
    + apply (cas_failure_run s addr expected desired weak so fo e d cur
               He Hd Hc). left. exact Hne.
    + simpl. rewrite load128_store128_ne by exact Dea. exact Hc.
    + simpl. apply load128_store128_eq.
Qed.

Lemma win32_cas_behaviour : cas_behaviour false Win32.compareAndSet_i128.
Proof.
  intros s addr expected desired cur e d Hc He Hd Wc We Wd Dae.
  assert (Dea : disjoint128 expected addr)
    by (unfold disjoint128 in *; lia).
  cbn [andb negb]. rewrite andb_true_r.
  destruct (decide (cur = e)) as [->|Hne].
  - rewrite bool_decide_eq_true_2 by reflexivity.
    rewrite (win32_compareAndSet_success s addr expected desired e d)
      by assumption.
    eexists. split; [reflexivity|]. simpl. split.
    + rewrite load128_store128_ne by exact Dea. apply load128_store128_eq.
    + apply load128_store128_eq.
  - rewrite bool_decide_eq_false_2 by exact Hne.
    rewrite (win32_compareAndSet_failure s addr expected desired e d cur)
      by assumption.
    eexists. split; [reflexivity|]. simpl. split.
    + rewrite load128_store128_ne by exact Dea. exact Hc.
    + apply load128_store128_eq.
Qed.

Lemma atomic_load_behaviour order :
  load_behaviour (fun addr out => __atomic_load addr out order).
Proof.
  intros s addr out. unfold load_spec. apply atomic_load_observe.
Qed.

Lemma atomic_store_behaviour order :
  store_behaviour (fun addr value => __atomic_store addr value order).
Proof.
  intros s addr value. unfold store_spec. apply atomic_store_observe.
Qed.

(** C8. Platform asymmetry of the export table.  With [_WIN32] defined the
    library exports exactly one function, [compareAndSet_i128], and it is a
    strong compare-and-set: no load, no store and no weak compare-and-set.
    Otherwise it exports eight: three loads and three stores (one per
    ordering variant), the strong compare-and-set and the weak one, so every
    family is present.  The family of each export is not only its tag in the
    table: the body of each exported function behaves as its family does.  A
    load copies the cell to the output object, a store copies the value
    object to the cell, a strong compare-and-set succeeds exactly when the
    cell matches, and the weak one succeeds exactly when the cell matches and
    the target does not decide for a spurious failure. *)
Theorem export_table_asymmetry :
  signature Windows = [("compareAndSet_i128"%string, StrongCas)]
  /\ signature NonWindows =
       [("getOpaque_i128"%string, Load);
        ("getAcquire_i128"%string, Load);
        ("getVolatile_i128"%string, Load);
        ("compareAndSet_i128"%string, StrongCas);
        ("weakCompareAndSetRelease_i128"%string, WeakCas);
        ("setOpaque_i128"%string, Store);
        ("setRelease_i128"%string, Store);
        ("setVolatile_i128"%string, Store)]
  /\ count_family Load (signature Windows) = 0%nat
  /\ count_family Store (signature Windows) = 0%nat
  /\ count_family WeakCas (signature Windows) = 0%nat
  /\ count_family StrongCas (signature Windows) = 1%nat
  /\ count_family Load (signature NonWindows) = 3%nat
  /\ count_family Store (signature NonWindows) = 3%nat
  /\ count_family StrongCas (signature NonWindows) = 1%nat
  /\ count_family WeakCas (signature NonWindows) = 1%nat
  /\ (forall t name e, In (name, e) (exports t) -> behaves e).
Proof.
  do 10 (split; [reflexivity|]).
  intros t name e Hin. destruct t; simpl in Hin.
  - destruct Hin as [Heq|[]]. injection Heq as _ <-.
    exact win32_cas_behaviour.
  - repeat (let Heq := fresh "Heq" in
            destruct Hin as [Heq|Hin]; [injection Heq as _ <-|]);
      [..|destruct Hin]; simpl.
    + exact (atomic_load_behaviour __ATOMIC_RELAXED).
    + exact (atomic_load_behaviour __ATOMIC_ACQUIRE).
    + exact (atomic_load_behaviour __ATOMIC_SEQ_CST).
    + exact (posix_cas_behaviour false __ATOMIC_SEQ_CST __ATOMIC_SEQ_CST).
    + exact (posix_cas_behaviour true __ATOMIC_RELEASE __ATOMIC_RELAXED).
    + exact (atomic_store_behaviour __ATOMIC_RELAXED).
    + exact (atomic_store_behaviour __ATOMIC_RELEASE).
    + exact (atomic_store_behaviour __ATOMIC_SEQ_CST).
Qed.

Lemma export_table_asymmetry_witness :
  (exists s',
      Win32.compareAndSet_i128 0 16 32 demo_state = Some (true, s')
      /\ load128 (heap s') 0 = Some V1
      /\ load128 (heap s') 16 = Some V0)
  /\
  (exists s',
      Posix.weakCompareAndSetRelease_i128 0 16 32 demo_state
        = Some (false, s')
      /\ load128 (heap s') 0 = Some V0
      /\ load128 (heap s') 16 = Some V0)
  /\
  observe (Posix.getAcquire_i128 0 64 demo_state)
    = load_spec (heap demo_state) 0 64.
Proof.
  assert (W0 : wf128 V0)
    by (unfold wf128, Word64.in_range, Word64.modulus; simpl; lia).
  assert (W1 : wf128 V1)
    by (unfold wf128, Word64.in_range, Word64.modulus; simpl; lia).
  assert (D : disjoint128 0 16) by (unfold disjoint128; lia).
  assert (Hc : load128 (heap demo_state) 0 = Some V0) by reflexivity.
  assert (He : load128 (heap demo_state) 16 = Some V0) by reflexivity.
  assert (Hd : load128 (heap demo_state) 32 = Some V1) by reflexivity.
  assert (Hstrong : bool_decide (V0 = V0)
                    && negb (false && spurious demo_state
                                        (weak_calls demo_state)) = true)
    by reflexivity.
  assert (Hweak : bool_decide (V0 = V0)
                  && negb (true && spurious demo_state
                                     (weak_calls demo_state)) = false)
    by reflexivity.
  destruct export_table_asymmetry
    as (_ & _ & _ & _ & _ & _ & _ & _ & _ & _ & Hbeh).
  split; [|split].
  - assert (Hin : In ("compareAndSet_i128"%string,
                      CasFn false Win32.compareAndSet_i128) (exports Windows))
      by (simpl; tauto).
    destruct (Hbeh _ _ _ Hin demo_state 0 16 32 V0 V0 V1 Hc He Hd W0 W0 W1 D)
      as (s' & Hrun & Hcell & Hexp).
    rewrite Hstrong in Hrun, Hcell. exists s'. auto.
  - destruct (Hbeh _ _ _ demo_weak_exported
                demo_state 0 16 32 V0 V0 V1 Hc He Hd W0 W0 W1 D)
      as (s' & Hrun & Hcell & Hexp).
    rewrite Hweak in Hrun, Hcell. exists s'. auto.
  - assert (Hin : In ("getAcquire_i128"%string,
                      LoadFn Posix.getAcquire_i128) (exports NonWindows))
      by (simpl; tauto).
    exact (Hbeh _ _ _ Hin demo_state 0 64).
Defined.

(** ** Traces of the accessors *)

Lemma atomic_load_trace s ptr ret_ order u s' :
  __atomic_load ptr ret_ order s = Some (u, s') ->
  trace s' = trace s ++ [EvLoad ptr order].
Proof.
  intros Hrun. pose proof (atomic_load_observe s ptr ret_ order) as Hobs.
  destruct (load128 (heap s) ptr) as [v|] eqn:Hv;
    [destruct (load128 (heap s) ret_) as [old|] eqn:Hold|].
  - rewrite (atomic_load_run s ptr ret_ order v old Hv Hold) in Hrun.
    injection Hrun as _ <-. reflexivity.
  - rewrite Hrun in Hobs. discriminate.
  - rewrite Hrun in Hobs. discriminate.
Qed.

Lemma atomic_store_trace s ptr val order u s' :
  __atomic_store ptr val order s = Some (u, s') ->
  trace s' = trace s ++ [EvStore ptr order].
Proof.
  intros Hrun. pose proof (atomic_store_observe s ptr val order) as Hobs.
  destruct (load128 (heap s) val) as [v|] eqn:Hv;
    [destruct (load128 (heap s) ptr) as [old|] eqn:Hold|].
  - rewrite (atomic_store_run s ptr val order v old Hv Hold) in Hrun.
    injection Hrun as _ <-. reflexivity.
  - rewrite Hrun in Hobs. discriminate.
  - rewrite Hrun in Hobs. discriminate.
Qed.

(** Walks an export list: an entry of another kind is discarded, an entry of
    the kind looked for is settled by [tac]. *)
Ltac walk_exports Hin Hrun tac :=
  repeat (let Heq := fresh "Heq" in
          destruct Hin as [Heq|Hin];
          [first [discriminate Heq
                 | injection Heq as _ <-; eexists; split;
                   [eapply tac; exact Hrun | simpl; tauto]]|]);
  destruct Hin.

(** C9. No invalid pairing of ordering and operation can be requested.  The
    exported loads and stores take two addresses and nothing else, so a caller
    cannot pass an order; and on either platform every exported load that
    completes performs exactly one atomic load of the cell, under relaxed,
    acquire or sequentially consistent order (never release), and every
    exported store that completes performs exactly one atomic store to the
    cell, under relaxed, release or sequentially consistent order (never
    acquire). *)
Theorem exported_orderings_valid t name f s addr p s' :
  f addr p s = Some (tt, s') ->
  (In (name, LoadFn f) (exports t) ->
   exists o, trace s' = trace s ++ [EvLoad addr o]
             /\ In o [__ATOMIC_RELAXED; __ATOMIC_ACQUIRE; __ATOMIC_SEQ_CST])
  /\
  (In (name, StoreFn f) (exports t) ->
   exists o, trace s' = trace s ++ [EvStore addr o]
             /\ In o [__ATOMIC_RELAXED; __ATOMIC_RELEASE; __ATOMIC_SEQ_CST]).
Proof.
  intros Hrun. split; intros Hin; destruct t; simpl in Hin.
  - destruct Hin as [Heq|[]]. discriminate Heq.
  - walk_exports Hin Hrun atomic_load_trace.
  - destruct Hin as [Heq|[]]. discriminate Heq.
  - walk_exports Hin Hrun atomic_store_trace.
Qed.

Lemma exported_orderings_valid_witness :
  (exists s' o,
      Posix.getAcquire_i128 0 64 demo_state = Some (tt, s')
      /\ trace s' = trace demo_state ++ [EvLoad 0 o]
      /\ In o [__ATOMIC_RELAXED; __ATOMIC_ACQUIRE; __ATOMIC_SEQ_CST])
  /\
  (exists s' o,
      Posix.setRelease_i128 0 32 demo_state = Some (tt, s')
      /\ trace s' = trace demo_state ++ [EvStore 0 o]
      /\ In o [__ATOMIC_RELAXED; __ATOMIC_RELEASE; __ATOMIC_SEQ_CST]).
Proof.
  split.
  - pose proof (atomic_load_run demo_state 0 64 __ATOMIC_ACQUIRE V0 V2
                  eq_refl eq_refl) as Hrun.
    destruct (exported_orderings_valid NonWindows "getAcquire_i128"
                Posix.getAcquire_i128 demo_state 0 64 _ Hrun) as [HL _].
    destruct HL as [o Ho]; [simpl; tauto|].
    eexists. exists o. split; [exact Hrun | exact Ho].
  - pose proof (atomic_store_run demo_state 0 32 __ATOMIC_RELEASE V1 V0
                  eq_refl eq_refl) as Hrun.
    destruct (exported_orderings_valid NonWindows "setRelease_i128"
                Posix.setRelease_i128 demo_state 0 32 _ Hrun) as [_ HS].
    destruct HS as [o Ho]; [simpl; tauto|].
    eexists. exists o. split; [exact Hrun | exact Ho].
Defined.

(** C10. Ordering strength does not change the sequential result.  Seen from
    one thread (returned value and memory), [getOpaque_i128],
    [getAcquire_i128] and [getVolatile_i128] are one and the same function,
    the reference load: the output object receives the cell's current 128
    bits and no other word changes, so the cell is as before whenever the
    output object is an object of its own.  Likewise [setOpaque_i128],
    [setRelease_i128] and [setVolatile_i128] are the reference store: the
    cell's 128 bits become the given value. *)
Theorem ordering_variants_coincide s addr p :
  (observe (Posix.getOpaque_i128 addr p s) = load_spec (heap s) addr p
   /\ observe (Posix.getAcquire_i128 addr p s) = load_spec (heap s) addr p
   /\ observe (Posix.getVolatile_i128 addr p s) = load_spec (heap s) addr p)
  /\
  (observe (Posix.setOpaque_i128 addr p s) = store_spec (heap s) addr p
   /\ observe (Posix.setRelease_i128 addr p s) = store_spec (heap s) addr p
   /\ observe (Posix.setVolatile_i128 addr p s) = store_spec (heap s) addr p)
  /\
  (forall v, load128 (heap s) addr = Some v ->
             is_Some (load128 (heap s) p) ->
             ~ partial_overlap addr p ->
             exists h', load_spec (heap s) addr p = Some (tt, h')
                        /\ load128 h' p = Some v
                        /\ load128 h' addr = Some v)
  /\
  (forall v, load128 (heap s) p = Some v ->
             is_Some (load128 (heap s) addr) ->
             exists h', store_spec (heap s) addr p = Some (tt, h')
                        /\ load128 h' addr = Some v).
Proof.
  split; [|split; [|split]].
  - unfold Posix.getOpaque_i128, Posix.getAcquire_i128,
      Posix.getVolatile_i128, load_spec.
    rewrite !atomic_load_observe. auto.
  - unfold Posix.setOpaque_i128, Posix.setRelease_i128,
      Posix.setVolatile_i128, store_spec.
    rewrite !atomic_store_observe. auto.
  - intros v Hv [old Hold] Hno. unfold load_spec. rewrite Hv, Hold.
    eexists. split; [reflexivity|]. split.
    + apply load128_store128_eq.
    + apply load128_store128_no_partial; assumption.
  - intros v Hv [old Hold]. unfold store_spec. rewrite Hv, Hold.
    eexists. split; [reflexivity|]. apply load128_store128_eq.
Qed.

Lemma ordering_variants_coincide_witness :
  (exists h', load_spec (heap demo_state) 0 64 = Some (tt, h')
              /\ load128 h' 64 = Some V0
              /\ load128 h' 0 = Some V0)
  /\
  (exists h', store_spec (heap demo_state) 0 64 = Some (tt, h')
              /\ load128 h' 0 = Some V2).
Proof.
  destruct (ordering_variants_coincide demo_state 0 64)
    as (_ & _ & Hload & Hstore).
  split.
  - apply Hload.
    + reflexivity.
    + exists V2. reflexivity.
    + unfold partial_overlap. lia.
  - apply Hstore.
    + reflexivity.
    + exists V0. reflexivity.
Defined.

(** ** The weak compare-and-set on a matching cell *)

(** X3. When the cell matches the expected object, the result of
    [weakCompareAndSetRelease_i128] is the negation of the target's decision
    for this call, whatever that decision is.  A spurious failure leaves the
    memory as it was, so a caller that repeats the call meets the same
    situation with the next decision of the target; a success leaves the
    desired value in the cell. *)
Lemma weakCompareAndSetRelease_matching s addr expected desired v d :
  load128 (heap s) addr = Some v ->
  load128 (heap s) expected = Some v ->
  load128 (heap s) desired = Some d ->
  exists s',
    Posix.weakCompareAndSetRelease_i128 addr expected desired s
      = Some (negb (spurious s (weak_calls s)), s')
    /\ weak_calls s' = S (weak_calls s)
    /\ spurious s' = spurious s
    /\ heap s' = if spurious s (weak_calls s) then heap s
                 else store128 (heap s) addr d.
Proof.
  intros Hc He Hd. unfold Posix.weakCompareAndSetRelease_i128.
  destruct (spurious s (weak_calls s)) eqn:Hsp.
  - eexists. split; [|split; [|split]].
    + apply (cas_failure_run s addr expected desired true _ _ v d v He Hd Hc).
      right. auto.
    + reflexivity.
    + reflexivity.
    + simpl. apply store128_id. exact He.
  - eexists. split; [|split; [|split]].
    + apply (cas_success_run s addr expected desired true _ _ v d He Hd Hc).
      intros _. exact Hsp.
    + reflexivity.
    + reflexivity.
    + reflexivity.
Qed.

(** ** Runs on the concrete machine *)

Example roundtrip_all_zero : roundtrip_run all_zero = Some all_zero.
Proof. vm_compute. reflexivity. Qed.

Example roundtrip_all_ones : roundtrip_run all_ones = Some all_ones.
Proof. vm_compute. reflexivity. Qed.

Example roundtrip_low_max : roundtrip_run low_max = Some low_max.
Proof. vm_compute. reflexivity. Qed.

Example roundtrip_high_max : roundtrip_run high_max = Some high_max.
Proof. vm_compute. reflexivity. Qed.

(** The trace of a strong compare-and-set that exchanges, followed by one
    that does not. *)
Example compareAndSet_trace :
  match (exec Posix.compareAndSet_i128 0 16 32 in
         Posix.compareAndSet_i128 0 16 48) demo_state with
  | Some (r, s) => Some (r, trace s)
  | None => None
  end
  = Some (false, [EvCasSuccess 0 false __ATOMIC_SEQ_CST;
                  EvCasFailure 0 false __ATOMIC_SEQ_CST]).
Proof. vm_compute. reflexivity. Qed.

(** On the concrete machine the target always decides for a spurious failure,
    so the weak compare-and-set reports [false] on a matching cell. *)
Example weakCompareAndSetRelease_spurious :
  match Posix.weakCompareAndSetRelease_i128 0 16 32 demo_state with
  | Some (r, s) => Some (r, trace s, load128 (heap s) 0, load128 (heap s) 16)
  | None => None
  end
  = Some (false, [EvCasFailure 0 true __ATOMIC_RELAXED], Some V0, Some V0).
Proof. vm_compute. reflexivity. Qed.

(** A dereference outside the allocated objects makes the call undefined. *)
Example getVolatile_unallocated :
  observe (Posix.getVolatile_i128 0 80 demo_state) = None.
Proof. vm_compute. reflexivity. Qed.

(** * Further properties of the exported functions *)

(** ** Complete case analysis of the built-ins *)

Lemma load128_allocated h p :
  is_Some (load128 h p) <-> allocated128 h p.
Proof.
  unfold load128, allocated128.
  destruct (h !! p) as [a|], (h !! (p + 8)) as [b|]; split;
    try (intros [[? ?] [? ?]]; discriminate);
    try (intros [? ?]; discriminate); eauto.
Qed.

Lemma write128_fail s p v :
  load128 (heap s) p = None -> write128 p v s = None.
Proof.
  unfold load128, write128, bind, write_word.
  destruct (heap s !! p) eqn:E1; [|reflexivity]. simpl.
  rewrite lookup_insert_ne by lia.
  destruct (heap s !! (p + 8)); [discriminate|reflexivity].
Qed.

Lemma atomic_load_inv s ptr ret_ order u s' :
  __atomic_load ptr ret_ order s = Some (u, s') ->
  exists v old,
    load128 (heap s) ptr = Some v
    /\ load128 (heap s) ret_ = Some old
    /\ s' = {| heap := store128 (heap s) ret_ v;
               trace := trace s ++ [EvLoad ptr order];
               spurious := spurious s; weak_calls := weak_calls s |}.
Proof.
  intros Hrun. pose proof (atomic_load_observe s ptr ret_ order) as Hobs.
  destruct (load128 (heap s) ptr) as [v|] eqn:Hv;
    [destruct (load128 (heap s) ret_) as [old|] eqn:Hold|].
  - rewrite (atomic_load_run s ptr ret_ order v old Hv Hold) in Hrun.
    injection Hrun as _ <-. eauto.
  - rewrite Hrun in Hobs. discriminate.
  - rewrite Hrun in Hobs. discriminate.
Qed.

Lemma atomic_store_inv s ptr val order u s' :
  __atomic_store ptr val order s = Some (u, s') ->
  exists v old,
    load128 (heap s) val = Some v
    /\ load128 (heap s) ptr = Some old
    /\ s' = {| heap := store128 (heap s) ptr v;
               trace := trace s ++ [EvStore ptr order];
               spurious := spurious s; weak_calls := weak_calls s |}.
Proof.
  intros Hrun. pose proof (atomic_store_observe s ptr val order) as Hobs.
  destruct (load128 (heap s) val) as [v|] eqn:Hv;
    [destruct (load128 (heap s) ptr) as [old|] eqn:Hold|].
  - rewrite (atomic_store_run s ptr val order v old Hv Hold) in Hrun.
    injection Hrun as _ <-. eauto.
  - rewrite Hrun in Hobs. discriminate.
  - rewrite Hrun in Hobs. discriminate.
Qed.

Lemma cas_undefined s ptr expected desired weak so fo :
  load128 (heap s) expected = None
  \/ load128 (heap s) desired = None
  \/ load128 (heap s) ptr = None ->
  __atomic_compare_exchange ptr expected desired weak so fo s = None.
Proof.
  intros H. unfold __atomic_compare_exchange.
  destruct (load128 (heap s) expected) as [e|] eqn:He.
  2:{ unfold bind at 1. rewrite (read128_fail _ _ He). reflexivity. }
  unfold bind at 1. rewrite (read128_run _ _ _ He).
  destruct (load128 (heap s) desired) as [d|] eqn:Hd.
  2:{ unfold bind at 1. rewrite (read128_fail _ _ Hd). reflexivity. }
  unfold bind at 1. rewrite (read128_run _ _ _ Hd).
  destruct (load128 (heap s) ptr) as [c|] eqn:Hc.
  2:{ unfold bind at 1. rewrite (read128_fail _ _ Hc). reflexivity. }
  destruct H as [H|[H|H]]; discriminate H.
Qed.

Lemma cas_inv s ptr expected desired weak so fo b s' :
  __atomic_compare_exchange ptr expected desired weak so fo s = Some (b, s') ->
  exists e d cur,
    load128 (heap s) expected = Some e
    /\ load128 (heap s) desired = Some d
    /\ load128 (heap s) ptr = Some cur
    /\ weak_calls s' = (if weak then S (weak_calls s) else weak_calls s)
    /\ spurious s' = spurious s
    /\ ((b = true /\ cur = e
         /\ (weak = true -> spurious s (weak_calls s) = false)
         /\ heap s' = store128 (heap s) ptr d
         /\ trace s' = trace s ++ [EvCasSuccess ptr weak so])
        \/
        (b = false
         /\ (cur <> e \/ (weak = true /\ spurious s (weak_calls s) = true))
         /\ heap s' = store128 (heap s) expected cur
         /\ trace s' = trace s ++ [EvCasFailure ptr weak fo])).
Proof.
  intros Hrun.
  destruct (load128 (heap s) expected) as [e|] eqn:He;
    [|rewrite cas_undefined in Hrun by auto; discriminate].
  destruct (load128 (heap s) desired) as [d|] eqn:Hd;
    [|rewrite cas_undefined in Hrun by auto; discriminate].
  destruct (load128 (heap s) ptr) as [cur|] eqn:Hc;
    [|rewrite cas_undefined in Hrun by auto; discriminate].
  exists e, d, cur. do 3 (split; [reflexivity|]).
  destruct (decide (cur = e)) as [->|Hne].
  - destruct weak.
    + destruct (spurious s (weak_calls s)) eqn:Hsp.
      * rewrite (cas_failure_run s ptr expected desired true so fo e d e)
          in Hrun by auto.
        injection Hrun as <- <-. simpl. split; [reflexivity|].
        split; [reflexivity|]. right. auto.
      * rewrite (cas_success_run s ptr expected desired true so fo e d)
          in Hrun by auto.
        injection Hrun as <- <-. simpl. split; [reflexivity|].
        split; [reflexivity|]. left. auto.
    + rewrite (cas_success_run s ptr expected desired false so fo e d)
        in Hrun by (auto; discriminate).
      injection Hrun as <- <-. simpl. split; [reflexivity|].
      split; [reflexivity|]. left. repeat split; auto. discriminate.
  - rewrite (cas_failure_run s ptr expected desired weak so fo e d cur)
      in Hrun by auto.
    injection Hrun as <- <-. simpl. split; [reflexivity|].
    split; [reflexivity|]. right. auto.
Qed.

Lemma win32_compareAndSet_run s addr expected desired e d cur :
  load128 (heap s) expected = Some e ->
  load128 (heap s) desired = Some d ->
  load128 (heap s) addr = Some cur ->
  Win32.compareAndSet_i128 addr expected desired s =
    Some (same_i64 cur e,
          {| heap := if same_i64 cur e
                     then store128 (store128 (heap s) addr (through_i64 d))
                            expected (through_i64 cur)
                     else store128 (heap s) expected (through_i64 cur);
             trace := trace s ++ [EvInterlocked128 addr (same_i64 cur e)];
             spurious := spurious s; weak_calls := weak_calls s |}).
Proof.
  intros [He0 He1]%load128_Some [Hd0 Hd1]%load128_Some [Hc0 Hc1]%load128_Some.
  unfold Win32.compareAndSet_i128.
  unfold bind at 1. replace (desired + 8 * 1) with (desired + 8) by lia.
  rewrite (read_i64_run _ _ _ Hd1).
  unfold bind at 1. replace (desired + 8 * 0) with desired by lia.
  rewrite (read_i64_run _ _ _ Hd0).
  unfold bind at 1, _InterlockedCompareExchange128.
  unfold bind at 1. rewrite (read_i64_run _ _ _ He0).
  unfold bind at 1. rewrite (read_i64_run _ _ _ He1).
  unfold bind at 1. rewrite (read_i64_run _ _ _ Hc0).
  unfold bind at 1. rewrite (read_i64_run _ _ _ Hc1).
  fold (same_i64 cur e). destruct (same_i64 cur e).
  - unfold bind at 1, emit. unfold write_i64.
    unfold bind at 1. rewrite write_word_run by (simpl; eauto).
    unfold bind at 1. rewrite write_word_run
      by (simpl; apply lookup_insert_keeps; eauto).
    unfold bind at 1. rewrite write_word_run
      by (simpl; do 2 apply lookup_insert_keeps; eauto).
    unfold bind at 1. rewrite write_word_run
      by (simpl; do 3 apply lookup_insert_keeps; eauto).
    reflexivity.
  - unfold bind at 1, emit. unfold write_i64.
    unfold bind at 1. rewrite write_word_run by (simpl; eauto).
    unfold bind at 1. rewrite write_word_run
      by (simpl; apply lookup_insert_keeps; eauto).
    reflexivity.
Qed.

Lemma read_i64_fail s p : heap s !! p = None -> read_i64 p s = None.
Proof. intros H. unfold read_i64, bind, read_word. rewrite H. reflexivity. Qed.

Lemma load128_None h p :
  load128 h p = None -> h !! p = None \/ h !! (p + 8) = None.
Proof.
  unfold load128. destruct (h !! p); [|auto].
  destruct (h !! (p + 8)); [discriminate|auto].
Qed.

Lemma win32_compareAndSet_undefined s addr expected desired :
  load128 (heap s) expected = None
  \/ load128 (heap s) desired = None
  \/ load128 (heap s) addr = None ->
  Win32.compareAndSet_i128 addr expected desired s = None.
Proof.
  intros H. unfold Win32.compareAndSet_i128.
  replace (desired + 8 * 1) with (desired + 8) by lia.
  replace (desired + 8 * 0) with desired by lia.
  destruct (heap s !! (desired + 8)) as [d1|] eqn:Hd1.
  2:{ unfold bind at 1. rewrite (read_i64_fail _ _ Hd1). reflexivity. }
  unfold bind at 1. rewrite (read_i64_run _ _ _ Hd1).
  destruct (heap s !! desired) as [d0|] eqn:Hd0.
  2:{ unfold bind at 1. rewrite (read_i64_fail _ _ Hd0). reflexivity. }
  unfold bind at 1. rewrite (read_i64_run _ _ _ Hd0).
  unfold bind at 1, _InterlockedCompareExchange128.
  destruct (heap s !! expected) as [e0|] eqn:He0.
  2:{ unfold bind at 1. rewrite (read_i64_fail _ _ He0). reflexivity. }
  unfold bind at 1. rewrite (read_i64_run _ _ _ He0).
  destruct (heap s !! (expected + 8)) as [e1|] eqn:He1.
  2:{ unfold bind at 1. rewrite (read_i64_fail _ _ He1). reflexivity. }
  unfold bind at 1. rewrite (read_i64_run _ _ _ He1).
  destruct (heap s !! addr) as [c0|] eqn:Hc0.
  2:{ unfold bind at 1. rewrite (read_i64_fail _ _ Hc0). reflexivity. }
  unfold bind at 1. rewrite (read_i64_run _ _ _ Hc0).
  destruct (heap s !! (addr + 8)) as [c1|] eqn:Hc1.
  2:{ unfold bind at 1. rewrite (read_i64_fail _ _ Hc1). reflexivity. }
  exfalso.
  destruct H as [H|[H|H]]; apply load128_None in H as [H|H]; congruence.
Qed.

Lemma win32_compareAndSet_inv s addr expected desired b s' :
  Win32.compareAndSet_i128 addr expected desired s = Some (b, s') ->
  exists e d cur,
    load128 (heap s) expected = Some e
    /\ load128 (heap s) desired = Some d
    /\ load128 (heap s) addr = Some cur
    /\ b = same_i64 cur e
    /\ weak_calls s' = weak_calls s
    /\ spurious s' = spurious s
    /\ trace s' = trace s ++ [EvInterlocked128 addr b]
    /\ heap s' = if b
                 then store128 (store128 (heap s) addr (through_i64 d))
                        expected (through_i64 cur)
                 else store128 (heap s) expected (through_i64 cur).
Proof.
  intros Hrun.
  destruct (load128 (heap s) expected) as [e|] eqn:He;
    [|rewrite win32_compareAndSet_undefined in Hrun by auto; discriminate].
  destruct (load128 (heap s) desired) as [d|] eqn:Hd;
    [|rewrite win32_compareAndSet_undefined in Hrun by auto; discriminate].
  destruct (load128 (heap s) addr) as [cur|] eqn:Hc;
    [|rewrite win32_compareAndSet_undefined in Hrun by auto; discriminate].
  rewrite (win32_compareAndSet_run s addr expected desired e d cur He Hd Hc)
    in Hrun.
  injection Hrun as <- <-. exists e, d, cur. simpl. repeat split; reflexivity.
Qed.

(** ** Stores and the shape of memory *)

Lemma store128_dom h p v :
  allocated128 h p -> dom (store128 h p v) = dom h.
Proof.
  intros [H0 H1]. unfold store128.
  rewrite dom_insert_lookup_L by (apply lookup_insert_keeps; exact H1).
  apply dom_insert_lookup_L. exact H0.
Qed.

Lemma heap_wf_store128 h p v :
  heap_wf h -> wf128 v -> heap_wf (store128 h p v).
Proof.
  intros Hh [Hl Hhi] a w. unfold store128.
  destruct (decide (a = p + 8)) as [->|N1].
  - rewrite lookup_insert_eq. intros [= <-]. exact Hhi.
  - rewrite lookup_insert_ne by congruence.
    destruct (decide (a = p)) as [->|N0].
    + rewrite lookup_insert_eq. intros [= <-]. exact Hl.
    + rewrite lookup_insert_ne by congruence. apply Hh.
Qed.

Lemma heap_wf_load128 h p v : heap_wf h -> load128 h p = Some v -> wf128 v.
Proof.
  intros Hh [H0 H1]%load128_Some. split; eapply Hh; eassumption.
Qed.

Lemma of_signed_in_range v : Word64.in_range (Word64.of_signed v).
Proof.
  unfold Word64.in_range, Word64.of_signed, Word64.modulus.
  apply Z.mod_pos_bound. lia.
Qed.

Lemma through_i64_wf v : wf128 (through_i64 v).
Proof. split; apply of_signed_in_range. Qed.

Lemma through_i64_id v : wf128 v -> through_i64 v = v.
Proof.
  intros [Hl Hh]. destruct v as [l h]; unfold through_i64; simpl in *.
  rewrite !of_signed_to_signed by assumption. reflexivity.
Qed.

Lemma stores_within_frame ok fp h h' :
  stores_within ok fp h h' ->
  forall a, ~ In a fp -> h' !! a = h !! a.
Proof.
  induction 1 as [|h' x v _ IH Hx Hx8 _ _]; intros a Ha; [reflexivity|].
  rewrite store128_lookup_other; [apply IH; exact Ha| |];
    intros ->; contradiction.
Qed.

Lemma stores_within_dom ok fp h h' :
  stores_within ok fp h h' -> dom h' = dom h.
Proof.
  induction 1 as [|h' x v _ IH _ _ Hal _]; [reflexivity|].
  rewrite store128_dom by exact Hal. exact IH.
Qed.

Lemma stores_within_wf fp h h' :
  stores_within wf128 fp h h' -> heap_wf h -> heap_wf h'.
Proof.
  induction 1 as [|h' x v _ IH _ _ _ Hv]; intros Hh; [exact Hh|].
  apply heap_wf_store128; auto.
Qed.

Lemma stores_within_weaken (ok ok' : atomic128_t -> Prop) fp h h' :
  (forall v, ok v -> ok' v) ->
  stores_within ok fp h h' -> stores_within ok' fp h h'.
Proof.
  intros Himp. induction 1; [constructor|]. constructor; auto.
Qed.

(** ** What a call through the export table does to memory *)

Lemma load128_Some_allocated h p v : load128 h p = Some v -> allocated128 h p.
Proof. intros H. apply load128_allocated. eauto. Qed.

Lemma atomic_load_stores s ptr ret_ order u s' :
  __atomic_load ptr ret_ order s = Some (u, s') ->
  stores_within (fun v => heap_wf (heap s) -> wf128 v) [ret_; ret_ + 8]
    (heap s) (heap s').
Proof.
  intros (v & old & Hv & Hold & ->)%atomic_load_inv. simpl.
  apply sw_store; [constructor|simpl; tauto|simpl; tauto| |].
  - eapply load128_Some_allocated; eassumption.
  - intros Hwf. eapply heap_wf_load128; eassumption.
Qed.

Lemma atomic_store_stores s ptr val order u s' :
  __atomic_store ptr val order s = Some (u, s') ->
  stores_within (fun v => heap_wf (heap s) -> wf128 v) [ptr; ptr + 8]
    (heap s) (heap s').
Proof.
  intros (v & old & Hv & Hold & ->)%atomic_store_inv. simpl.
  apply sw_store; [constructor|simpl; tauto|simpl; tauto| |].
  - eapply load128_Some_allocated; eassumption.
  - intros Hwf. eapply heap_wf_load128; eassumption.
Qed.

Lemma cas_stores s ptr expected desired weak so fo b s' :
  __atomic_compare_exchange ptr expected desired weak so fo s = Some (b, s') ->
  stores_within (fun v => heap_wf (heap s) -> wf128 v)
    [ptr; ptr + 8; expected; expected + 8] (heap s) (heap s').
Proof.
  intros (e & d & cur & He & Hd & Hc & _ & _ & Hcase)%cas_inv.
  destruct Hcase as [(_ & _ & _ & -> & _)|(_ & _ & -> & _)].
  - apply sw_store; [constructor|simpl; tauto|simpl; tauto| |].
    + eapply load128_Some_allocated; eassumption.
    + intros Hwf. eapply heap_wf_load128; eassumption.
  - apply sw_store; [constructor|simpl; tauto|simpl; tauto| |].
    + eapply load128_Some_allocated; eassumption.
    + intros Hwf. eapply heap_wf_load128; eassumption.
Qed.

Lemma win32_stores s addr expected desired b s' :
  Win32.compareAndSet_i128 addr expected desired s = Some (b, s') ->
  stores_within (fun v => heap_wf (heap s) -> wf128 v)
    [addr; addr + 8; expected; expected + 8] (heap s) (heap s').
Proof.
  intros (e & d & cur & He & Hd & Hc & _ & _ & _ & _ & ->)
    %win32_compareAndSet_inv.
  destruct b.
  - apply sw_store; [|simpl; tauto|simpl; tauto| |].
    + apply sw_store; [constructor|simpl; tauto|simpl; tauto| |].
      * eapply load128_Some_allocated; eassumption.
      * intros _. apply through_i64_wf.
    + apply load128_allocated, load128_store128_is_Some. eauto.
    + intros _. apply through_i64_wf.
  - apply sw_store; [constructor|simpl; tauto|simpl; tauto| |].
    + eapply load128_Some_allocated; eassumption.
    + intros _. apply through_i64_wf.
Qed.

(** Case analysis over the export table: one goal per exported function. *)
Ltac each_export Hin :=
  repeat (let Heq := fresh "Heq" in
          destruct Hin as [Heq|Hin];
          [injection Heq as _ <-|]);
  [..|destruct Hin].

Lemma exports_stores_within t name e addr p q s s' :
  In (name, e) (exports t) ->
  runs e addr p q s s' ->
  stores_within (fun v => heap_wf (heap s) -> wf128 v) (footprint e addr p)
    (heap s) (heap s').
Proof.
  intros Hin Hrun. destruct t; simpl in Hin; each_export Hin;
    simpl in Hrun |- *.
  - destruct Hrun as [r Hrun]. eapply win32_stores; exact Hrun.
  - eapply atomic_load_stores; exact Hrun.
  - eapply atomic_load_stores; exact Hrun.
  - eapply atomic_load_stores; exact Hrun.
  - destruct Hrun as [r Hrun]. unfold Posix.compareAndSet_i128 in Hrun.
    eapply cas_stores; exact Hrun.
  - destruct Hrun as [r Hrun].
    unfold Posix.weakCompareAndSetRelease_i128 in Hrun.
    eapply cas_stores; exact Hrun.
  - eapply atomic_store_stores; exact Hrun.
  - eapply atomic_store_stores; exact Hrun.
  - eapply atomic_store_stores; exact Hrun.
Qed.

(** ** Results of the compare-and-set functions *)

(** X1. The result of the strong [compareAndSet_i128] is exact.  Whenever the
    call completes, it returns [true] if and only if the cell held the same
    128 bits as the expected object; if [true], the memory is the old memory
    with the desired object copied into the cell (the expected object is not
    written); if [false], it is the old memory with the cell's contents copied
    into the expected object. *)
Theorem compareAndSet_result_exact s addr expected desired b s' :
  Posix.compareAndSet_i128 addr expected desired s = Some (b, s') ->
  exists e d cur,
    load128 (heap s) expected = Some e
    /\ load128 (heap s) desired = Some d
    /\ load128 (heap s) addr = Some cur
    /\ b = bool_decide (cur = e)
    /\ heap s' = if b then store128 (heap s) addr d
                 else store128 (heap s) expected cur.
Proof.
  unfold Posix.compareAndSet_i128.
  intros (e & d & cur & He & Hd & Hc & _ & _ & Hcase)%cas_inv.
  exists e, d, cur. do 3 (split; [assumption|]).
  destruct Hcase as [(-> & -> & _ & Hh & _)|(-> & Hwhy & Hh & _)].
  - rewrite bool_decide_eq_true_2 by reflexivity. auto.
  - destruct Hwhy as [Hne|[Hw _]]; [|discriminate Hw].
    rewrite bool_decide_eq_false_2 by exact Hne. auto.
Qed.

Lemma compareAndSet_result_exact_witness :
  exists s' e d cur,
    Posix.compareAndSet_i128 0 64 32 demo_state = Some (false, s')
    /\ load128 (heap demo_state) 64 = Some e
    /\ load128 (heap demo_state) 32 = Some d
    /\ load128 (heap demo_state) 0 = Some cur
    /\ false = bool_decide (cur = e)
    /\ heap s' = store128 (heap demo_state) 64 cur.
Proof.
  assert (He : load128 (heap demo_state) 64 = Some V2) by reflexivity.
  assert (Hd : load128 (heap demo_state) 32 = Some V1) by reflexivity.
  assert (Hc : load128 (heap demo_state) 0 = Some V0) by reflexivity.
  assert (Hne : V0 <> V2) by discriminate.
  pose proof (cas_failure_run demo_state 0 64 32 false __ATOMIC_SEQ_CST
                __ATOMIC_SEQ_CST V2 V1 V0 He Hd Hc (or_introl Hne)) as Hrun.
  fold (Posix.compareAndSet_i128 0 64 32) in Hrun.
  destruct (compareAndSet_result_exact demo_state 0 64 32 false _ Hrun)
    as (e & d & cur & H).
  eexists. exists e, d, cur. split; [exact Hrun | exact H].
Defined.

(** X2. The weak compare-and-set never reports a success it did not perform
    and never disturbs the cell when it reports failure.  If
    [weakCompareAndSetRelease_i128] returns [true], the cell held the expected
    value and the memory is the old one with the desired object copied into
    the cell.  If it returns [false], for a mismatch or spuriously, the cell
    holds what it held before and the expected object now holds that same
    value. *)
Theorem weakCompareAndSetRelease_result_sound s addr expected desired b s' :
  Posix.weakCompareAndSetRelease_i128 addr expected desired s = Some (b, s') ->
  ~ partial_overlap addr expected ->
  exists cur,
    load128 (heap s) addr = Some cur
    /\ if b
       then load128 (heap s) expected = Some cur
            /\ exists d, load128 (heap s) desired = Some d
                         /\ heap s' = store128 (heap s) addr d
       else load128 (heap s') addr = Some cur
            /\ load128 (heap s') expected = Some cur.
Proof.
  unfold Posix.weakCompareAndSetRelease_i128.
  intros (e & d & cur & He & Hd & Hc & _ & _ & Hcase)%cas_inv Hno.
  exists cur. split; [exact Hc|].
  destruct Hcase as [(-> & -> & _ & Hh & _)|(-> & _ & Hh & _)].
  - split; [exact He|]. exists d. auto.
  - rewrite Hh. split.
    + apply load128_store128_no_partial; assumption.
    + apply load128_store128_eq.
Qed.

Lemma weakCompareAndSetRelease_result_sound_witness :
  exists s' cur,
    Posix.weakCompareAndSetRelease_i128 0 16 32 demo_state = Some (false, s')
    /\ load128 (heap demo_state) 0 = Some cur
    /\ load128 (heap s') 0 = Some cur
    /\ load128 (heap s') 16 = Some cur.
Proof.
  assert (He : load128 (heap demo_state) 16 = Some V0) by reflexivity.
  assert (Hd : load128 (heap demo_state) 32 = Some V1) by reflexivity.
  assert (Hc : load128 (heap demo_state) 0 = Some V0) by reflexivity.
  assert (Hsp : spurious demo_state (weak_calls demo_state) = true)
    by reflexivity.
  pose proof (cas_failure_run demo_state 0 16 32 true __ATOMIC_RELEASE
                __ATOMIC_RELAXED V0 V1 V0 He Hd Hc
                (or_intror (conj eq_refl Hsp))) as Hrun.
  fold (Posix.weakCompareAndSetRelease_i128 0 16 32) in Hrun.
  destruct (weakCompareAndSetRelease_result_sound demo_state 0 16 32 false _
              Hrun) as (cur & H0 & H1 & H2).
  { unfold partial_overlap. lia. }
  eexists. exists cur. split; [exact Hrun|]. auto.
Defined.

Lemma weakCompareAndSetRelease_matching_witness :
  exists s',
    Posix.weakCompareAndSetRelease_i128 0 16 32 demo_state
      = Some (negb (spurious demo_state (weak_calls demo_state)), s')
    /\ weak_calls s' = S (weak_calls demo_state)
    /\ spurious s' = spurious demo_state
    /\ heap s' = if spurious demo_state (weak_calls demo_state)
                 then heap demo_state
                 else store128 (heap demo_state) 0 V1.
Proof.
  apply (weakCompareAndSetRelease_matching demo_state 0 16 32 V0 V1);
    reflexivity.
Defined.

(** X4. The retry contract of the strong compare-and-set.  After a call that
    failed on a mismatch, the expected object holds the value the cell
    actually has, so repeating the call with the same three arguments, with
    no read in between, returns [true] and leaves the desired value in the
    cell. *)
Theorem compareAndSet_retry_after_mismatch s addr expected desired cur e d :
  load128 (heap s) addr = Some cur ->
  load128 (heap s) expected = Some e ->
  load128 (heap s) desired = Some d ->
  cur <> e ->
  disjoint128 addr expected ->
  disjoint128 expected desired ->
  exists s1 s2,
    Posix.compareAndSet_i128 addr expected desired s = Some (false, s1)
    /\ Posix.compareAndSet_i128 addr expected desired s1 = Some (true, s2)
    /\ load128 (heap s2) addr = Some d
    /\ load128 (heap s2) expected = Some cur.
Proof.
  intros Hc He Hd Hne Dae Ded.
  assert (Dea : disjoint128 expected addr)
    by (unfold disjoint128 in *; lia).
  pose (h1 := store128 (heap s) expected cur).
  assert (Hc1 : load128 h1 addr = Some cur).
  { unfold h1. rewrite load128_store128_ne by exact Dea. exact Hc. }
  assert (Hd1 : load128 h1 desired = Some d).
  { unfold h1. rewrite load128_store128_ne by exact Ded. exact Hd. }
  assert (He1 : load128 h1 expected = Some cur).
  { unfold h1. apply load128_store128_eq. }
  do 2 eexists. split; [|split; [|split]].
  - unfold Posix.compareAndSet_i128.
    apply (cas_failure_run s addr expected desired false _ _ e d cur He Hd Hc).
    left. exact Hne.
  - unfold Posix.compareAndSet_i128.
    apply (cas_success_run _ addr expected desired false _ _ cur d);
      simpl; try assumption. discriminate.
  - simpl. apply load128_store128_eq.
  - simpl. fold h1. rewrite load128_store128_ne by exact Dae. exact He1.
Qed.

Lemma compareAndSet_retry_after_mismatch_witness :
  exists s1 s2,
    Posix.compareAndSet_i128 0 64 32 demo_state = Some (false, s1)
    /\ Posix.compareAndSet_i128 0 64 32 s1 = Some (true, s2)
    /\ load128 (heap s2) 0 = Some V1
    /\ load128 (heap s2) 64 = Some V0.
Proof.
  apply (compareAndSet_retry_after_mismatch demo_state 0 64 32 V0 V2 V1);
    try reflexivity; try discriminate; unfold disjoint128; lia.
Defined.

(** X5. Memory orders of the two compare-and-set functions.  Each completed
    call performs exactly one atomic operation on the cell.
    [compareAndSet_i128] is a strong compare-exchange under sequentially
    consistent order whether it succeeds or fails;
    [weakCompareAndSetRelease_i128] is a weak compare-exchange under release
    order when it succeeds and relaxed order when it fails. *)
Theorem compareAndSet_orderings s addr expected desired b s' :
  (Posix.compareAndSet_i128 addr expected desired s = Some (b, s') ->
   trace s' = trace s ++
     [if b then EvCasSuccess addr false __ATOMIC_SEQ_CST
      else EvCasFailure addr false __ATOMIC_SEQ_CST])
  /\
  (Posix.weakCompareAndSetRelease_i128 addr expected desired s = Some (b, s') ->
   trace s' = trace s ++
     [if b then EvCasSuccess addr true __ATOMIC_RELEASE
      else EvCasFailure addr true __ATOMIC_RELAXED]).
Proof.
  split.
  - unfold Posix.compareAndSet_i128.
    intros (e & d & cur & _ & _ & _ & _ & _ & Hcase)%cas_inv.
    destruct Hcase as [(-> & _ & _ & _ & Ht)|(-> & _ & _ & Ht)]; exact Ht.
  - unfold Posix.weakCompareAndSetRelease_i128.
    intros (e & d & cur & _ & _ & _ & _ & _ & Hcase)%cas_inv.
    destruct Hcase as [(-> & _ & _ & _ & Ht)|(-> & _ & _ & Ht)]; exact Ht.
Qed.

Lemma compareAndSet_orderings_witness :
  (exists s', Posix.compareAndSet_i128 0 16 32 demo_state = Some (true, s')
              /\ trace s' = trace demo_state
                            ++ [EvCasSuccess 0 false __ATOMIC_SEQ_CST])
  /\
  (exists s', Posix.weakCompareAndSetRelease_i128 0 16 32 demo_state
                = Some (false, s')
              /\ trace s' = trace demo_state
                            ++ [EvCasFailure 0 true __ATOMIC_RELAXED]).
Proof.
  assert (He : load128 (heap demo_state) 16 = Some V0) by reflexivity.
  assert (Hd : load128 (heap demo_state) 32 = Some V1) by reflexivity.
  assert (Hc : load128 (heap demo_state) 0 = Some V0) by reflexivity.
  assert (Hsp : spurious demo_state (weak_calls demo_state) = true)
    by reflexivity.
  assert (Hst : false = true -> spurious demo_state (weak_calls demo_state)
                                = false) by discriminate.
  split.
  - pose proof (cas_success_run demo_state 0 16 32 false __ATOMIC_SEQ_CST
                  __ATOMIC_SEQ_CST V0 V1 He Hd Hc Hst) as Hrun.
    fold (Posix.compareAndSet_i128 0 16 32) in Hrun.
    eexists. split; [exact Hrun|].
    exact (proj1 (compareAndSet_orderings demo_state 0 16 32 true _) Hrun).
  - pose proof (cas_failure_run demo_state 0 16 32 true __ATOMIC_RELEASE
                  __ATOMIC_RELAXED V0 V1 V0 He Hd Hc
                  (or_intror (conj eq_refl Hsp))) as Hrun.
    fold (Posix.weakCompareAndSetRelease_i128 0 16 32) in Hrun.
    eexists. split; [exact Hrun|].
    exact (proj2 (compareAndSet_orderings demo_state 0 16 32 false _) Hrun).
Defined.

(** ** The Windows compare-and-set *)

(** X6. Outcome of the Windows [compareAndSet_i128].  On memory holding 64-bit
    patterns, with the expected array apart from the cell, the call completes
    and returns [true] exactly when the cell equals the expected array (it
    never fails spuriously); afterwards the cell holds the desired value if
    the result is [true] and its old value otherwise, and the expected array
    holds the cell's old value in both cases. *)
Theorem win32_compareAndSet_outcome s addr expected desired cur e d :
  load128 (heap s) addr = Some cur ->
  load128 (heap s) expected = Some e ->
  load128 (heap s) desired = Some d ->
  wf128 cur -> wf128 e -> wf128 d ->
  disjoint128 addr expected ->
  exists s',
    Win32.compareAndSet_i128 addr expected desired s
      = Some (bool_decide (cur = e), s')
    /\ load128 (heap s') addr
       = Some (if bool_decide (cur = e) then d else cur)
    /\ load128 (heap s') expected = Some cur.
Proof.
  intros Hc He Hd Wc We Wd Dae.
  assert (Dea : disjoint128 expected addr)
    by (unfold disjoint128 in *; lia).
  rewrite (win32_compareAndSet_run s addr expected desired e d cur He Hd Hc).
  unfold same_i64. rewrite (signed_compare cur e Wc We).
  rewrite !through_i64_id by assumption.
  eexists. split; [reflexivity|]. simpl.
  destruct (bool_decide (cur = e)); split.
  - rewrite load128_store128_ne by exact Dea. apply load128_store128_eq.
  - apply load128_store128_eq.
  - rewrite load128_store128_ne by exact Dea. exact Hc.
  - apply load128_store128_eq.
Qed.

Lemma win32_compareAndSet_outcome_witness :
  exists s',
    Win32.compareAndSet_i128 0 64 32 demo_state
      = Some (bool_decide (V0 = V2), s')
    /\ load128 (heap s') 0 = Some (if bool_decide (V0 = V2) then V1 else V0)
    /\ load128 (heap s') 64 = Some V0.
Proof.
  assert (W0 : wf128 V0)
    by (unfold wf128, Word64.in_range, Word64.modulus; simpl; lia).
  assert (W1 : wf128 V1)
    by (unfold wf128, Word64.in_range, Word64.modulus; simpl; lia).
  assert (W2 : wf128 V2)
    by (unfold wf128, Word64.in_range, Word64.modulus; simpl; lia).
  assert (D : disjoint128 0 64) by (unfold disjoint128; lia).
  assert (Hc : load128 (heap demo_state) 0 = Some V0) by reflexivity.
  assert (He : load128 (heap demo_state) 64 = Some V2) by reflexivity.
  assert (Hd : load128 (heap demo_state) 32 = Some V1) by reflexivity.
  exact (win32_compareAndSet_outcome demo_state 0 64 32 V0 V2 V1
           Hc He Hd W0 W2 W1 D).
Defined.

(** ** Stores followed by loads *)

Lemma atomic_store_load_roundtrip s addr value out o1 o2 V :
  load128 (heap s) value = Some V ->
  allocated128 (heap s) addr ->
  allocated128 (heap s) out ->
  exists s1 s2,
    __atomic_store addr value o1 s = Some (tt, s1)
    /\ __atomic_load addr out o2 s1 = Some (tt, s2)
    /\ load128 (heap s2) out = Some V.
Proof.
  intros HV [old Hold]%load128_allocated Hout%load128_allocated.
  destruct (load128_store128_is_Some (heap s) addr out V Hout) as [o' Ho'].
  do 2 eexists. split; [|split].
  - eapply atomic_store_run; eassumption.
  - eapply atomic_load_run; simpl.
    + apply load128_store128_eq.
    + exact Ho'.
  - simpl. apply load128_store128_eq.
Qed.

(** X7. Round trip through any pair of ordering variants.  Whichever exported
    store ([setOpaque_i128], [setRelease_i128], [setVolatile_i128]) writes a
    value to a cell and whichever exported load ([getOpaque_i128],
    [getAcquire_i128], [getVolatile_i128]) reads the cell next, both calls
    complete and the output object receives exactly the value stored. *)
Theorem store_load_roundtrip_any_variant t n1 st n2 ld s addr value out V :
  In (n1, StoreFn st) (exports t) ->
  In (n2, LoadFn ld) (exports t) ->
  load128 (heap s) value = Some V ->
  allocated128 (heap s) addr ->
  allocated128 (heap s) out ->
  exists s1 s2,
    st addr value s = Some (tt, s1)
    /\ ld addr out s1 = Some (tt, s2)
    /\ load128 (heap s2) out = Some V.
Proof.
  intros Hst Hld HV Ha Ho. destruct t; simpl in Hst, Hld.
  - destruct Hst as [Heq|[]]. discriminate Heq.
  - repeat (let Heq := fresh "Heq" in
            destruct Hst as [Heq|Hst];
            [first [discriminate Heq | injection Heq as _ <-]|]);
      [..|destruct Hst];
      (repeat (let Heq := fresh "Heq" in
               destruct Hld as [Heq|Hld];
               [first [discriminate Heq | injection Heq as _ <-]|]);
       [..|destruct Hld]);
      apply atomic_store_load_roundtrip; assumption.
Qed.

Lemma store_load_roundtrip_any_variant_witness :
  exists s1 s2,
    Posix.setOpaque_i128 0 32 demo_state = Some (tt, s1)
    /\ Posix.getAcquire_i128 0 64 s1 = Some (tt, s2)
    /\ load128 (heap s2) 64 = Some V1.
Proof.
  assert (HV : load128 (heap demo_state) 32 = Some V1) by reflexivity.
  assert (Ha : allocated128 (heap demo_state) 0).
  { apply (load128_Some_allocated _ _ V0). reflexivity. }
  assert (Ho : allocated128 (heap demo_state) 64).
  { apply (load128_Some_allocated _ _ V2). reflexivity. }
  apply (store_load_roundtrip_any_variant NonWindows
           "setOpaque_i128" Posix.setOpaque_i128
           "getAcquire_i128" Posix.getAcquire_i128 demo_state 0 32 64 V1);
    try assumption; simpl; tauto.
Defined.

(** ** Properties shared by every exported function *)

Lemma heap_wf_empty : heap_wf ∅.
Proof. intros p w H. rewrite lookup_empty in H. discriminate. Qed.

Lemma heap_wf_insert h p w :
  heap_wf h -> Word64.in_range w -> heap_wf (<[p := w]> h).
Proof.
  intros Hh Hw a x. destruct (decide (a = p)) as [->|Hne].
  - rewrite lookup_insert_eq. intros [= <-]. exact Hw.
  - rewrite lookup_insert_ne by congruence. apply Hh.
Qed.

Lemma heap_wf_demo : heap_wf (heap demo_state).
Proof.
  assert (W0 : wf128 V0)
    by (unfold wf128, Word64.in_range, Word64.modulus; simpl; lia).
  assert (W1 : wf128 V1)
    by (unfold wf128, Word64.in_range, Word64.modulus; simpl; lia).
  assert (W2 : wf128 V2)
    by (unfold wf128, Word64.in_range, Word64.modulus; simpl; lia).
  assert (Z0 : Word64.in_range 0)
    by (unfold Word64.in_range, Word64.modulus; lia).
  unfold demo_state, demo_heap, heap.
  repeat apply heap_wf_store128; try assumption.
  cbn [list_to_map foldr uncurry fst snd].
  repeat apply heap_wf_insert; try assumption.
  apply heap_wf_empty.
Qed.

Lemma demo_weak_runs :
  exists s',
    runs (CasFn true Posix.weakCompareAndSetRelease_i128) 0 16 32
      demo_state s'.
Proof.
  assert (He : load128 (heap demo_state) 16 = Some V0) by reflexivity.
  assert (Hd : load128 (heap demo_state) 32 = Some V1) by reflexivity.
  assert (Hc : load128 (heap demo_state) 0 = Some V0) by reflexivity.
  assert (Hsp : spurious demo_state (weak_calls demo_state) = true)
    by reflexivity.
  pose proof (cas_failure_run demo_state 0 16 32 true __ATOMIC_RELEASE
                __ATOMIC_RELAXED V0 V1 V0 He Hd Hc
                (or_intror (conj eq_refl Hsp))) as Hrun.
  eexists. exists false. exact Hrun.
Qed.

(** X8. No exported function writes outside the objects its prototype leaves
    writable.  After any completed call, on either platform, every word of
    memory other than those of the output object (for a load), of the cell
    (for a store), or of the cell and the expected object (for a
    compare-and-set) is unchanged; in particular the [const] value and
    desired objects are only read. *)
Theorem exports_write_only_footprint t name e addr p q s s' a :
  In (name, e) (exports t) ->
  runs e addr p q s s' ->
  ~ In a (footprint e addr p) ->
  heap s' !! a = heap s !! a.
Proof.
  intros Hin Hrun Ha.
  eapply stores_within_frame; [|exact Ha].
  eapply exports_stores_within; eassumption.
Qed.

Lemma exports_write_only_footprint_witness :
  exists s',
    runs (CasFn true Posix.weakCompareAndSetRelease_i128) 0 16 32
      demo_state s'
    /\ heap s' !! 32 = heap demo_state !! 32.
Proof.
  destruct demo_weak_runs as [s' Hrun]. exists s'. split; [exact Hrun|].
  apply (exports_write_only_footprint NonWindows _ _ 0 16 32 demo_state s' 32
           demo_weak_exported Hrun).
  simpl. lia.
Defined.

(** X9. No exported function allocates or frees.  After any completed call,
    on either platform, the set of addresses that hold a word is the same as
    before. *)
Theorem exports_preserve_allocation t name e addr p q s s' :
  In (name, e) (exports t) ->
  runs e addr p q s s' ->
  dom (heap s') = dom (heap s).
Proof.
  intros Hin Hrun.
  eapply stores_within_dom. eapply exports_stores_within; eassumption.
Qed.

Lemma exports_preserve_allocation_witness :
  exists s',
    runs (CasFn true Posix.weakCompareAndSetRelease_i128) 0 16 32
      demo_state s'
    /\ dom (heap s') = dom (heap demo_state).
Proof.
  destruct demo_weak_runs as [s' Hrun]. exists s'. split; [exact Hrun|].
  exact (exports_preserve_allocation NonWindows _ _ 0 16 32 demo_state s'
           demo_weak_exported Hrun).
Defined.

(** X10. Every exported function keeps memory well formed.  If every word of
    memory is a 64-bit pattern before a call, on either platform, then every
    word is a 64-bit pattern after it: the struct copies of the built-ins move
    words unchanged, and the Windows function, which passes words through
    signed [__int64] values, stores them back reduced modulo 2^64. *)
Theorem exports_preserve_word_range t name e addr p q s s' :
  In (name, e) (exports t) ->
  runs e addr p q s s' ->
  heap_wf (heap s) ->
  heap_wf (heap s').
Proof.
  intros Hin Hrun Hwf.
  eapply stores_within_wf; [|exact Hwf].
  eapply stores_within_weaken;
    [|eapply exports_stores_within; eassumption].
  intros v Hv. exact (Hv Hwf).
Qed.

Lemma exports_preserve_word_range_witness :
  exists s',
    runs (CasFn true Posix.weakCompareAndSetRelease_i128) 0 16 32
      demo_state s'
    /\ heap_wf (heap s').
Proof.
  destruct demo_weak_runs as [s' Hrun]. exists s'. split; [exact Hrun|].
  exact (exports_preserve_word_range NonWindows _ _ 0 16 32 demo_state s'
           demo_weak_exported Hrun heap_wf_demo).
Defined.

(** ** When a call is defined *)

Lemma atomic_load_defined s ptr ret_ order :
  (exists s', __atomic_load ptr ret_ order s = Some (tt, s'))
  <-> allocated128 (heap s) ptr /\ allocated128 (heap s) ret_.
Proof.
  split.
  - intros [s' (v & old & Hv & Hold & _)%atomic_load_inv].
    split; eapply load128_Some_allocated; eassumption.
  - intros [[v Hv]%load128_allocated [old Hold]%load128_allocated].
    eexists. eapply atomic_load_run; eassumption.
Qed.

Lemma atomic_store_defined s ptr val order :
  (exists s', __atomic_store ptr val order s = Some (tt, s'))
  <-> allocated128 (heap s) ptr /\ allocated128 (heap s) val.
Proof.
  split.
  - intros [s' (v & old & Hv & Hold & _)%atomic_store_inv].
    split; eapply load128_Some_allocated; eassumption.
  - intros [[old Hold]%load128_allocated [v Hv]%load128_allocated].
    eexists. eapply atomic_store_run; eassumption.
Qed.

Lemma cas_defined s ptr expected desired weak so fo :
  (exists s' b,
      __atomic_compare_exchange ptr expected desired weak so fo s
        = Some (b, s'))
  <-> allocated128 (heap s) ptr /\ allocated128 (heap s) expected
      /\ allocated128 (heap s) desired.
Proof.
  split.
  - intros (s' & b & (e & d & cur & He & Hd & Hc & _)%cas_inv).
    repeat split; eapply load128_Some_allocated; eassumption.
  - intros ([cur Hc]%load128_allocated & [e He]%load128_allocated
            & [d Hd]%load128_allocated).
    destruct (decide (cur = e
                      /\ (weak = true -> spurious s (weak_calls s) = false)))
      as [[-> Hw]|Hn].
    + do 2 eexists. eapply cas_success_run; eassumption.
    + do 2 eexists. eapply cas_failure_run; try eassumption.
      destruct (decide (cur = e)) as [Heq|Hne]; [|left; exact Hne].
      right. destruct weak.
      * split; [reflexivity|].
        destruct (spurious s (weak_calls s)); [reflexivity|].
        exfalso. apply Hn. auto.
      * exfalso. apply Hn. split; [exact Heq|discriminate].
Qed.

Lemma win32_defined s addr expected desired :
  (exists s' b, Win32.compareAndSet_i128 addr expected desired s = Some (b, s'))
  <-> allocated128 (heap s) addr /\ allocated128 (heap s) expected
      /\ allocated128 (heap s) desired.
Proof.
  split.
  - intros (s' & b & (e & d & cur & He & Hd & Hc & _)
                       %win32_compareAndSet_inv).
    repeat split; eapply load128_Some_allocated; eassumption.
  - intros ([cur Hc]%load128_allocated & [e He]%load128_allocated
            & [d Hd]%load128_allocated).
    do 2 eexists. eapply win32_compareAndSet_run; eassumption.
Qed.

(** X11. There is no dynamic error path.  For a cell at a 16-byte-aligned
    address, as the functions require of their caller, a call of any exported
    function, on either platform, completes if and only if every object it is
    handed exists: the cell and the output or value object for a load or
    store, and the cell, the expected object and the desired object for a
    compare-and-set (the desired object is read even when the comparison
    fails).  Nothing is said of a misaligned cell. *)
Theorem exports_defined_iff_allocated t name e addr p q s :
  In (name, e) (exports t) ->
  aligned16 addr ->
  (exists s', runs e addr p q s s')
  <-> Forall (allocated128 (heap s)) (arguments e addr p q).
Proof.
  intros Hin _. destruct t; simpl in Hin; each_export Hin; simpl;
    rewrite ?Forall_cons, Forall_nil.
  - pose proof (win32_defined s addr p q). tauto.
  - pose proof (atomic_load_defined s addr p __ATOMIC_RELAXED).
    unfold Posix.getOpaque_i128. tauto.
  - pose proof (atomic_load_defined s addr p __ATOMIC_ACQUIRE).
    unfold Posix.getAcquire_i128. tauto.
  - pose proof (atomic_load_defined s addr p __ATOMIC_SEQ_CST).
    unfold Posix.getVolatile_i128. tauto.
  - pose proof (cas_defined s addr p q false
                  __ATOMIC_SEQ_CST __ATOMIC_SEQ_CST).
    unfold Posix.compareAndSet_i128. tauto.
  - pose proof (cas_defined s addr p q true
                  __ATOMIC_RELEASE __ATOMIC_RELAXED).
    unfold Posix.weakCompareAndSetRelease_i128. tauto.
  - pose proof (atomic_store_defined s addr p __ATOMIC_RELAXED).
    unfold Posix.setOpaque_i128. tauto.
  - pose proof (atomic_store_defined s addr p __ATOMIC_RELEASE).
    unfold Posix.setRelease_i128. tauto.
  - pose proof (atomic_store_defined s addr p __ATOMIC_SEQ_CST).
    unfold Posix.setVolatile_i128. tauto.
Qed.

Lemma exports_defined_iff_allocated_witness :
  (exists s', runs (CasFn true Posix.weakCompareAndSetRelease_i128) 0 16 80
                demo_state s')
  <-> Forall (allocated128 (heap demo_state))
        (arguments (CasFn true Posix.weakCompareAndSetRelease_i128) 0 16 80).
Proof.
  assert (Hal : aligned16 0) by reflexivity.
  exact (exports_defined_iff_allocated NonWindows _ _ 0 16 80 demo_state
           demo_weak_exported Hal).
Defined.

(** ** Weak against strong *)

(** X12. The weak compare-and-set differs from the strong one by spurious
    failures only.  In any state in which the target does not decide for a
    spurious failure of the next weak call, [weakCompareAndSetRelease_i128]
    and [compareAndSet_i128] return the same result and leave the same
    memory, undefined cases included. *)
Theorem weak_agrees_with_strong s addr expected desired :
  spurious s (weak_calls s) = false ->
  observe (Posix.weakCompareAndSetRelease_i128 addr expected desired s)
  = observe (Posix.compareAndSet_i128 addr expected desired s).
Proof.
  intros Hsp.
  unfold Posix.weakCompareAndSetRelease_i128, Posix.compareAndSet_i128.
  destruct (load128 (heap s) expected) as [e|] eqn:He;
    [|rewrite !cas_undefined by auto; reflexivity].
  destruct (load128 (heap s) desired) as [d|] eqn:Hd;
    [|rewrite !cas_undefined by auto; reflexivity].
  destruct (load128 (heap s) addr) as [cur|] eqn:Hc;
    [|rewrite !cas_undefined by auto; reflexivity].
  destruct (decide (cur = e)) as [->|Hne].
  - rewrite (cas_success_run s addr expected desired true _ _ e d)
      by auto.
    rewrite (cas_success_run s addr expected desired false _ _ e d)
      by (auto; discriminate).
    reflexivity.
  - rewrite (cas_failure_run s addr expected desired true _ _ e d cur)
      by auto.
    rewrite (cas_failure_run s addr expected desired false _ _ e d cur)
      by auto.
    reflexivity.
Qed.

Lemma weak_agrees_with_strong_witness :
  observe (Posix.weakCompareAndSetRelease_i128 0 16 32
             {| heap := demo_heap; trace := []; spurious := fun _ => false;
                weak_calls := 0 |})
  = observe (Posix.compareAndSet_i128 0 16 32
               {| heap := demo_heap; trace := []; spurious := fun _ => false;
                  weak_calls := 0 |}).
Proof.
  assert (Hsp : spurious {| heap := demo_heap; trace := [];
                            spurious := fun _ => false; weak_calls := 0 |}
                  (weak_calls {| heap := demo_heap; trace := [];
                                 spurious := fun _ => false;
                                 weak_calls := 0 |}) = false)
    by reflexivity.
  exact (weak_agrees_with_strong _ 0 16 32 Hsp).
Defined.
